(** * graphql-ts-generator: the schema registry, the type-reference
    translator, the request-shape resolver and the emitter of [main.go],
    embedded as Rocq functions, with the properties of its specification.

    Go strings are byte sequences: they are modelled by [string] (a list of
    8-bit [ascii]).  Go maps are modelled by stdpp's [gmap]; the order in
    which a [range] loop visits a map is not fixed by Go, so every such loop
    takes its visiting order from a schedule (see [Schedule]). *)

From Stdlib Require Import Ascii.
From Stdlib Require String.
From stdpp Require Import base option list gmap strings fin_maps fin_sets.

#[local] Set Warnings "-clear-no-such-hyp".

Local Open Scope stdpp_scope.

(** ** The functions of Go's [strings] package that [main.go] calls *)

Module strings.

Definition len (s : string) : nat := String.length s.

(** [s[i:j]]: Go panics unless [0 <= i <= j <= len(s)]; [None] is the panic. *)
Definition slice (s : string) (i j : nat) : option string :=
  if (i <=? j) && (j <=? len s) then Some (String.substring i (j - i) s)
  else None.

(** [len(s) >= len(prefix) && s[:len(prefix)] == prefix] *)
Definition HasPrefix (s prefix : string) : bool :=
  (len prefix <=? len s) &&
  String.eqb (String.substring 0 (len prefix) s) prefix.

(** [len(s) >= len(suffix) && s[len(s)-len(suffix):] == suffix] *)
Definition HasSuffix (s suffix : string) : bool :=
  (len suffix <=? len s) &&
  String.eqb (String.substring (len s - len suffix) (len suffix) s) suffix.

(** [if HasSuffix(s, suffix) { return s[:len(s)-len(suffix)] }; return s] *)
Definition TrimSuffix (s suffix : string) : string :=
  if HasSuffix s suffix then String.substring 0 (len s - len suffix) s
  else s.

End strings.

(** ** Type Reference Translator *)

(** The [switch cleanType] of [convertGraphqlTypeToTs]. *)
Definition scalarToTs (cleanType : string) : string :=
  if String.eqb cleanType "String" then "string"
  else if String.eqb cleanType "Int" then "number"
  else if String.eqb cleanType "Float" then "number"
  else if String.eqb cleanType "Boolean" then "boolean"
  else if String.eqb cleanType "ID" then "string"
  else if String.eqb cleanType "DateTime" then "string"
  else if String.eqb cleanType "JSONObject" then "Record<string, unknown>"
  else cleanType.

(** [convertGraphqlTypeToTs] recurses on the interior of a bracketed
    reference, which is not a structural subterm: the recursion is bounded
    by [fuel], and [None] stands for "out of fuel" or for a slice panic. *)
Fixpoint convertGraphqlTypeToTs_fuel (fuel : nat) (graphqlType : string)
  : option string :=
  match fuel with
  | 0 => None
  | S fuel' =>
      let cleanType := strings.TrimSuffix graphqlType "!" in
      if strings.HasPrefix cleanType "[" && strings.HasSuffix cleanType "]"
      then
        innerType ← strings.slice cleanType 1 (strings.len cleanType - 1);
        inner ← convertGraphqlTypeToTs_fuel fuel' innerType;
        Some ("Array<" +:+ inner +:+ ">")
      else Some (scalarToTs cleanType)
  end.

Definition convertGraphqlTypeToTs (graphqlType : string) : option string :=
  convertGraphqlTypeToTs_fuel (S (strings.len graphqlType)) graphqlType.


(** ** The parser's output ([ast] of gqlparser), as far as [main.go] reads it *)

Module ast.

Inductive DefinitionKind :=
  Scalar | Object | Interface | Union | Enum | InputObject.

#[global] Instance DefinitionKind_eq_dec : EqDecision DefinitionKind.
Proof. solve_decision. Defined.

(** A field: its name and the text [field.Type.String()] returns, the raw
    type reference ([String], [User!], [[Project!]!], ...). *)
Record FieldDefinition := mkField {
  fieldName : string;
  fieldType : string;
}.

Record EnumValueDefinition := mkEnumValue {
  enumValueName : string;
}.

Record Definition_ := mkDefinition {
  defKind : DefinitionKind;
  defName : string;
  defFields : list FieldDefinition;
  defEnumValues : list EnumValueDefinition;
}.

End ast.
Import ast.

(** ** Schema Registry: the package-level variables of [main.go] *)

Record TypeInfo := mkTypeInfo {
  tiName : string;
  tiDefinition : Definition_;
}.

Record Globals := mkGlobals {
  types : gmap string TypeInfo;
  enums : gmap string Definition_;
  queries : gmap string FieldDefinition;
  mutations : gmap string FieldDefinition;
}.

Definition emptyGlobals : Globals := mkGlobals ∅ ∅ ∅ ∅.

(** A Go function returning [error]: [Ok] is [nil], [Err] carries the message. *)
Inductive result (A : Type) :=
  | Ok (a : A)
  | Err (msg : string).
Arguments Ok {A} a.
Arguments Err {A} msg.

Definition bindResult {A B} (r : result A) (k : A → result B) : result B :=
  match r with
  | Ok a => k a
  | Err msg => Err msg
  end.

Fixpoint foldResult {A B} (f : B → A → result B) (b : B) (l : list A)
  : result B :=
  match l with
  | [] => Ok b
  | a :: l' => bindResult (f b a) (λ b', foldResult f b' l')
  end.

(** The loop of [compareDefinitions], after the length test: position by
    position, the first difference in name or type text returns [false]. *)
Fixpoint compareFieldLists (a b : list FieldDefinition) : bool :=
  match a, b with
  | fa :: a', fb :: b' =>
      if negb (String.eqb (fieldName fa) (fieldName fb))
         || negb (String.eqb (fieldType fa) (fieldType fb))
      then false
      else compareFieldLists a' b'
  | _, _ => true
  end.

Definition compareDefinitions (a b : Definition_) : bool :=
  if negb (length (defFields a) =? length (defFields b)) then false
  else compareFieldLists (defFields a) (defFields b).

Fixpoint compareEnumValueLists (a b : list EnumValueDefinition) : bool :=
  match a, b with
  | va :: a', vb :: b' =>
      if negb (String.eqb (enumValueName va) (enumValueName vb)) then false
      else compareEnumValueLists a' b'
  | _, _ => true
  end.

Definition compareEnums (a b : Definition_) : bool :=
  if negb (length (defEnumValues a) =? length (defEnumValues b)) then false
  else compareEnumValueLists (defEnumValues a) (defEnumValues b).

Definition addTypeOrInterface (skipChecks : bool) (g : Globals)
  (def : Definition_) : result Globals :=
  match types g !! defName def with
  | Some existing =>
      if negb skipChecks && negb (compareDefinitions (tiDefinition existing) def)
      then Err ("error: type or interface " +:+ defName def
                +:+ " has conflicting definitions")
      else Ok g
  | None =>
      Ok (mkGlobals (<[defName def := mkTypeInfo (defName def) def]> (types g))
                    (enums g) (queries g) (mutations g))
  end.

Definition addEnum (skipChecks : bool) (g : Globals) (enum : Definition_)
  : result Globals :=
  match enums g !! defName enum with
  | Some existingEnum =>
      if negb skipChecks && negb (compareEnums existingEnum enum)
      then Err ("error: enum " +:+ defName enum
                +:+ " has conflicting definitions")
      else Ok g
  | None =>
      Ok (mkGlobals (types g) (<[defName enum := enum]> (enums g))
                    (queries g) (mutations g))
  end.

(** ** Aggregator *)

(** [for _, field := range typ.Fields { queries[field.Name] = field }] *)
Definition addRootFields (fields : list FieldDefinition)
  (m : gmap string FieldDefinition) : gmap string FieldDefinition :=
  foldl (λ m field, <[fieldName field := field]> m) m fields.

(** The body of the loop over [schema.Types] in [processSchemaFile]. *)
Definition processType (skipChecks : bool) (g : Globals) (typ : Definition_)
  : result Globals :=
  bindResult
    (if bool_decide (defKind typ = Object) || bool_decide (defKind typ = Interface)
     then
       if String.eqb (defName typ) "Query" then
         Ok (mkGlobals (types g) (enums g)
                       (addRootFields (defFields typ) (queries g)) (mutations g))
       else if String.eqb (defName typ) "Mutation" then
         Ok (mkGlobals (types g) (enums g) (queries g)
                       (addRootFields (defFields typ) (mutations g)))
       else addTypeOrInterface skipChecks g typ
     else Ok g)
    (λ g,
      if bool_decide (defKind typ = Enum) then addEnum skipChecks g typ
      else Ok g).

(** What reading and parsing one file gave: [os.ReadFile] failed,
    [gqlparser.LoadSchema] failed, or a schema whose [Types] the loop visits
    in the listed order. *)
Inductive SchemaFile :=
  | Unreadable (path err : string)
  | Unparsable (path err : string)
  | Parsed (schemaTypes : list Definition_).

Definition processSchemaFile (skipChecks : bool) (g : Globals)
  (file : SchemaFile) : result Globals :=
  match file with
  | Unreadable path err =>
      Err ("could not read file " +:+ path +:+ ": " +:+ err)
  | Unparsable path err =>
      Err ("error parsing schema in file " +:+ path +:+ ": " +:+ err)
  | Parsed schemaTypes => foldResult (processType skipChecks) g schemaTypes
  end.

(** The [filepath.Walk] of [main]: the files in walk order, stopping at the
    first error. *)
Definition processSchemaFiles (skipChecks : bool) (g : Globals)
  (files : list SchemaFile) : result Globals :=
  foldResult (processSchemaFile skipChecks) g files.

(** ** Runtime conventions of the emitter

    A function that can panic (a slice out of range) or that recurses
    without a structural argument returns an [option]; [None] is "no result". *)

Fixpoint foldOption {A B} (f : B → A → option B) (b : B) (l : list A)
  : option B :=
  match l with
  | [] => Some b
  | a :: l' => b' ← f b a; foldOption f b' l'
  end.

(** [m[k]] on a [map[string]bool]: the zero value [false] for a missing key. *)
Definition mapIndex (m : gmap string bool) (k : string) : bool :=
  default false (m !! k).

(** [strings.Builder.WriteString] *)
Definition WriteString (buffer s : string) : string := buffer +:+ s.

Definition LF : string := String "010"%char "".

(** The [range] loops over maps of the generator, one name per loop. *)
Inductive LoopSite :=
  | EnumsLoop
  | TypesLoop
  | RootLoop (rootName : string)
  | MissingLoop
  | RequestLoop.

(** A schedule gives, for every loop and map, the order in which the loop
    visits the entries; Go fixes only that each entry is visited once. *)
Definition Schedule : Type :=
  ∀ V : Type, LoopSite → gmap string V → list (string * V).

Definition fairSchedule (range : Schedule) : Prop :=
  ∀ V site (m : gmap string V), range V site m ≡ₚ map_to_list m.

Definition defaultSchedule : Schedule := λ V _ m, map_to_list m.

(** ** Request-Shape Resolver *)

Definition isObjectType (g : Globals) (typeName : string) : bool :=
  match types g !! typeName with
  | Some _ => true
  | None => false
  end.

Definition extractCleanType (typeStr : string) : option string :=
  let cleanType := strings.TrimSuffix typeStr "!" in
  if strings.HasPrefix cleanType "[" && strings.HasSuffix cleanType "]" then
    cleanType ← strings.slice cleanType 1 (strings.len cleanType - 1);
    Some (strings.TrimSuffix cleanType "!")
  else Some cleanType.

Definition isObjectOrArrayOfObjects (g : Globals) (fieldType : string)
  : option bool :=
  cleanType ← extractCleanType fieldType;
  Some (match types g !! cleanType with Some _ => true | None => false end).

(** The resolver state: [processedTypes] (visited) and [deferredInterfaces]
    (pending), the two maps every call shares and updates. *)
Definition Marks : Type := gmap string bool * gmap string bool.

Fixpoint bufferRequestInterface (g : Globals) (fuel : nat)
  (returnType : string) (marks : Marks) : option Marks :=
  match fuel with
  | 0 => None
  | S fuel' =>
      let '(processedTypes, deferredInterfaces) := marks in
      cleanType ← extractCleanType returnType;
      if mapIndex processedTypes cleanType then
        Some (processedTypes, deferredInterfaces)
      else
        let processedTypes := <[cleanType := true]> processedTypes in
        match types g !! cleanType with
        | Some typeInfo =>
            let deferredInterfaces := <[cleanType := true]> deferredInterfaces in
            foldOption
              (λ marks field,
                 b ← isObjectOrArrayOfObjects g (fieldType field);
                 if b : bool then
                   bufferRequestInterface g fuel' (fieldType field) marks
                 else Some marks)
              (processedTypes, deferredInterfaces)
              (defFields (tiDefinition typeInfo))
        | None => Some (processedTypes, deferredInterfaces)
        end
  end.

(** The recursion depth of [bufferRequestInterface] is bounded by the number
    of registered types: each nested call has marked one more of them. *)
Definition resolverFuel (g : Globals) : nat := S (size (types g)).

Definition determineFieldType (g : Globals) (fieldTypeStr : string)
  : option string :=
  cleanType ← extractCleanType fieldTypeStr;
  if strings.HasPrefix cleanType "[" && strings.HasSuffix cleanType "]" then
    innerType ← strings.slice cleanType 1 (strings.len cleanType - 1);
    let innerType := strings.TrimSuffix innerType "!" in
    if isObjectType g innerType then
      Some ("Array<" +:+ innerType +:+ "Request>")
    else Some "Array<boolean | number>"
  else if isObjectType g cleanType then Some (cleanType +:+ "Request")
  else Some "boolean | number".

(** ** Emitter *)

Definition writeFileHeader (buffer : string) : string :=
  let buffer := WriteString buffer
    ("/*" +:+ LF +:+
     " * -------------------------------------------------------" +:+ LF +:+
     " * THIS FILE WAS AUTOMATICALLY GENERATED (DO NOT MODIFY)" +:+ LF +:+
     " * -------------------------------------------------------" +:+ LF +:+
     " */" +:+ LF +:+ LF +:+
     "/* tslint:disable */" +:+ LF +:+
     "/* eslint-disable */" +:+ LF +:+ LF) in
  WriteString buffer ("type Nullable<T> = T | null;" +:+ LF +:+ LF).

(** The field loop body that [generateTypeInterface] and
    [generateRootInterfaces] both have: optional fields get [?] and the
    [Nullable] wrapper. *)
Definition writeField (buffer : string) (field : FieldDefinition)
  : option string :=
  let isOptional := negb (strings.HasSuffix (fieldType field) "!") in
  fieldType ← convertGraphqlTypeToTs (fieldType field);
  if isOptional then
    Some (WriteString buffer
      ("  " +:+ fieldName field +:+ "?: Nullable<" +:+ fieldType +:+ ">;" +:+ LF))
  else
    Some (WriteString buffer
      ("  " +:+ fieldName field +:+ ": " +:+ fieldType +:+ ";" +:+ LF)).

Definition generateTypeInterface (buffer : string) (typeInfo : TypeInfo)
  : option string :=
  let buffer :=
    if bool_decide (defKind (tiDefinition typeInfo) = Object) then
      WriteString buffer ("export interface " +:+ tiName typeInfo +:+ " {" +:+ LF)
    else if bool_decide (defKind (tiDefinition typeInfo) = Interface) then
      WriteString buffer ("export interface " +:+ tiName typeInfo +:+ " {" +:+ LF)
    else buffer in
  buffer ← foldOption writeField buffer (defFields (tiDefinition typeInfo));
  Some (WriteString buffer ("}" +:+ LF +:+ LF)).

(** The field loop body of [generateRequestInterfaces]. *)
Definition writeRequestField (g : Globals) (buffer : string)
  (field : FieldDefinition) : option string :=
  let fieldTypeStr := fieldType field in
  let isOptional := negb (strings.HasSuffix fieldTypeStr "!") in
  fieldType ← determineFieldType g fieldTypeStr;
  if isOptional then
    Some (WriteString buffer
      ("  " +:+ fieldName field +:+ "?: " +:+ fieldType +:+ ";" +:+ LF))
  else
    Some (WriteString buffer
      ("  " +:+ fieldName field +:+ ": " +:+ fieldType +:+ ";" +:+ LF)).

(** The loop body of [bufferMissingRequestInterfaces], for one entry of
    [types]; the call gets a fresh visited map. *)
Definition sweepEntry (g : Globals) (deferredInterfaces : gmap string bool)
  (entry : string * TypeInfo) : option (gmap string bool) :=
  let typeName := entry.1 in
  b ← isObjectOrArrayOfObjects g typeName;
  if b && negb (mapIndex deferredInterfaces typeName) then
    let deferredInterfaces := <[typeName := true]> deferredInterfaces in
    snd <$> bufferRequestInterface g (resolverFuel g) typeName
              (∅, deferredInterfaces)
  else Some deferredInterfaces.

Section Generator.

Variable range : Schedule.

Definition generateEnums (g : Globals) (buffer : string) : string :=
  foldl
    (λ buffer '(_, enum),
       let buffer :=
         WriteString buffer ("export enum " +:+ defName enum +:+ " {" +:+ LF) in
       let buffer :=
         foldl (λ buffer value,
                  WriteString buffer
                    ("  " +:+ enumValueName value +:+ " = '"
                     +:+ enumValueName value +:+ "'," +:+ LF))
               buffer (defEnumValues enum) in
       WriteString buffer ("}" +:+ LF +:+ LF))
    buffer (range _ EnumsLoop (enums g)).

Definition generateRootInterfaces (g : Globals) (buffer : string)
  (fields : gmap string FieldDefinition) (rootName : string) (marks : Marks)
  : option (string * Marks) :=
  if 0 <? size fields then
    let buffer :=
      WriteString buffer ("export interface " +:+ rootName +:+ " {" +:+ LF) in
    '(buffer, marks) ←
      foldOption
        (λ '(buffer, marks) '(_, field),
           buffer ← writeField buffer field;
           marks ← bufferRequestInterface g (resolverFuel g) (fieldType field) marks;
           Some (buffer, marks))
        (buffer, marks) (range _ (RootLoop rootName) fields);
    Some (WriteString buffer ("}" +:+ LF +:+ LF), marks)
  else Some (buffer, marks).

Definition bufferMissingRequestInterfaces (g : Globals)
  (deferredInterfaces : gmap string bool) : option (gmap string bool) :=
  foldOption (sweepEntry g) deferredInterfaces (range _ MissingLoop (types g)).

Definition generateRequestInterfaces (g : Globals) (buffer : string)
  (deferredInterfaces : gmap string bool) : option string :=
  foldOption
    (λ buffer '(deferredType, _),
       match types g !! deferredType with
       | Some typeInfo =>
           let projectionInterfaceName := deferredType +:+ "Request" in
           let buffer :=
             WriteString buffer
               ("export interface " +:+ projectionInterfaceName +:+ " {" +:+ LF) in
           buffer ← foldOption (writeRequestField g) buffer
                      (defFields (tiDefinition typeInfo));
           Some (WriteString buffer ("}" +:+ LF +:+ LF))
       | None => Some buffer
       end)
    buffer (range _ RequestLoop deferredInterfaces).

(** The loop over [types] of [generateTypescriptFile]: the data interface
    of the type, then the marking of the types its fields refer to. *)
Definition generateTypes (g : Globals) (buffer : string) (marks : Marks)
  : option (string * Marks) :=
  foldOption
    (λ '(buffer, marks) '(_, typeInfo),
       buffer ← generateTypeInterface buffer typeInfo;
       marks ←
         foldOption
           (λ marks field,
              b ← isObjectOrArrayOfObjects g (fieldType field);
              if b : bool then
                bufferRequestInterface g (resolverFuel g) (fieldType field) marks
              else Some marks)
           marks (defFields (tiDefinition typeInfo));
       Some (buffer, marks))
    (buffer, marks) (range _ TypesLoop (types g)).

(** The pending set after the marking passes and the sweep, with the text
    written so far. *)
Definition resolveRequestInterfaces (g : Globals) (buffer : string)
  : option (string * gmap string bool) :=
  let processedTypes : gmap string bool := ∅ in
  let deferredInterfaces : gmap string bool := ∅ in
  '(buffer, marks) ← generateTypes g buffer (processedTypes, deferredInterfaces);
  '(buffer, marks) ← generateRootInterfaces g buffer (queries g) "Query" marks;
  '(buffer, marks) ← generateRootInterfaces g buffer (mutations g) "Mutation" marks;
  deferredInterfaces ← bufferMissingRequestInterfaces g (snd marks);
  Some (buffer, deferredInterfaces).

(** [generateTypescriptFile]: [createErr] is the error of
    [os.Create(outputPath)], if any; the result is the error the function
    returns or the text it hands to [file.WriteString] (whose own result
    the code does not look at). *)
Definition generateTypescriptFile (createErr : option string) (g : Globals)
  : option (result string) :=
  match createErr with
  | Some err => Some (Err ("could not create file: " +:+ err))
  | None =>
      let requestInterfacesBuffer := "" in
      let requestInterfacesBuffer := writeFileHeader requestInterfacesBuffer in
      let requestInterfacesBuffer := generateEnums g requestInterfacesBuffer in
      '(requestInterfacesBuffer, deferredInterfaces) ←
        resolveRequestInterfaces g requestInterfacesBuffer;
      requestInterfacesBuffer ←
        generateRequestInterfaces g requestInterfacesBuffer deferredInterfaces;
      Some (Ok requestInterfacesBuffer)
  end.

End Generator.

(** ** [main]

    What [filepath.Walk] passes to the callback of [main], in walk order:
    an error, a directory, or a file with its name and with what reading
    and parsing it gives. *)
Inductive WalkEntry :=
  | WalkError (err : string)
  | WalkDir (name : string)
  | WalkFile (name : string) (file : SchemaFile).

(** The callback of [filepath.Walk] in [main]. *)
Definition walkFunc (skipChecks : bool) (g : Globals) (entry : WalkEntry)
  : result Globals :=
  match entry with
  | WalkError err => Err err
  | WalkDir _ => Ok g
  | WalkFile name file =>
      if strings.HasSuffix name ".graphql" then processSchemaFile skipChecks g file
      else Ok g
  end.

(** [main] after flag parsing.  [inputDirMissing] is [os.IsNotExist] of the
    [os.Stat] error, [walk] the entries of the walk, [createErr] the error
    of [os.Create].  [Err] is the message of [log.Fatalf], [Ok] the text
    written to the output file. *)
Definition main (range : Schedule) (skipChecks : bool) (inputDir : string)
  (inputDirMissing : bool) (walk : list WalkEntry) (createErr : option string)
  : option (result string) :=
  if inputDirMissing then
    Some (Err ("Input directory does not exist: " +:+ inputDir))
  else
    match foldResult (walkFunc skipChecks) emptyGlobals walk with
    | Err err => Some (Err ("Error processing schema files: " +:+ err))
    | Ok g =>
        match generateTypescriptFile range createErr g with
        | Some (Err err) =>
            Some (Err ("Error generating TypeScript file: " +:+ err))
        | Some (Ok text) => Some (Ok text)
        | None => None
        end
    end.

(** ** Views used by the statements below *)

(** The list test of the translator and of the resolver:
    [strings.HasPrefix(s, "[") && strings.HasSuffix(s, "]")]. *)
Definition bracketed (s : string) : bool :=
  strings.HasPrefix s "[" && strings.HasSuffix s "]".

(** One step of the recursion, with the recursive call abstracted. *)
Definition convertStep (rec : string → option string) (graphqlType : string)
  : option string :=
  let cleanType := strings.TrimSuffix graphqlType "!" in
  if bracketed cleanType then
    innerType ← strings.slice cleanType 1 (strings.len cleanType - 1);
    inner ← rec innerType;
    Some ("Array<" +:+ inner +:+ ">")
  else Some (scalarToTs cleanType).

(** The root fields that ingestion adds to the mapping of [rootName], in
    the order of the assignments [queries[field.Name] = field]. *)
Definition rootFieldsOfType (rootName : string) (typ : Definition_)
  : list FieldDefinition :=
  if (bool_decide (defKind typ = Object) || bool_decide (defKind typ = Interface))
     && String.eqb (defName typ) rootName
  then defFields typ else [].

Definition rootFieldsOfFile (rootName : string) (file : SchemaFile)
  : list FieldDefinition :=
  match file with
  | Parsed schemaTypes => schemaTypes ≫= rootFieldsOfType rootName
  | _ => []
  end.

Definition rootFieldsOf (rootName : string) (files : list SchemaFile)
  : list FieldDefinition :=
  files ≫= rootFieldsOfFile rootName.

(** The last field of the sequence that has the given name. *)
Definition lastNamed (name : string) (fields : list FieldDefinition)
  : option FieldDefinition :=
  last (filter (λ field, fieldName field = name) fields).

Definition isRootType (typ : Definition_) : bool :=
  (bool_decide (defKind typ = Object) || bool_decide (defKind typ = Interface))
  && (String.eqb (defName typ) "Query" || String.eqb (defName typ) "Mutation").

(** Two field lists differ at a position. *)
Definition differAt (a b : list FieldDefinition) (i : nat) : Prop :=
  ∃ fa fb, a !! i = Some fa ∧ b !! i = Some fb ∧
           (fieldName fa ≠ fieldName fb ∨ fieldType fa ≠ fieldType fb).

(** The visited names of a [map[string]bool]: the keys that read as [true]. *)
Definition marked (m : gmap string bool) : gset string :=
  dom (filter (λ kv, kv.2 = true) m).

(** [bufferRequestInterface] with a history: the same function, which also
    records each type name at the moment it expands it (passes the visited
    test, finds the type and walks its fields). *)
Fixpoint bufferRequestInterface_traced (g : Globals) (fuel : nat)
  (returnType : string) (st : Marks * list string)
  : option (Marks * list string) :=
  match fuel with
  | 0 => None
  | S fuel' =>
      let '((processedTypes, deferredInterfaces), trace) := st in
      cleanType ← extractCleanType returnType;
      if mapIndex processedTypes cleanType then
        Some ((processedTypes, deferredInterfaces), trace)
      else
        let processedTypes := <[cleanType := true]> processedTypes in
        match types g !! cleanType with
        | Some typeInfo =>
            let deferredInterfaces := <[cleanType := true]> deferredInterfaces in
            foldOption
              (λ st field,
                 b ← isObjectOrArrayOfObjects g (fieldType field);
                 if b : bool then
                   bufferRequestInterface_traced g fuel' (fieldType field) st
                 else Some st)
              ((processedTypes, deferredInterfaces), cleanType :: trace)
              (defFields (tiDefinition typeInfo))
        | None => Some ((processedTypes, deferredInterfaces), trace)
        end
  end.

(** The history is sound for a visited map: no name twice, every name visited. *)
Definition traceOk (st : Marks * list string) : Prop :=
  NoDup st.2 ∧ ∀ x, x ∈ st.2 → x ∈ marked st.1.1.

(** What a call of the resolver may do to its state: visit more names, mark
    more registered types pending, and keep the history sound. *)
Definition extends (g : Globals) (st st' : Marks * list string) : Prop :=
  marked st.1.1 ⊆ marked st'.1.1 ∧
  dom st.1.2 ⊆ dom st'.1.2 ∧
  dom st'.1.2 ⊆ dom st.1.2 ∪ dom (types g) ∧
  (traceOk st → traceOk st').

(** ** The sections of the output, as the specification words them *)

Definition concatText (l : list string) : string := foldr String.append "" l.

Definition tsType (ref : string) : string :=
  default "" (convertGraphqlTypeToTs ref).

(** [name: Type;] when non-nullable, [name?: Nullable<Type>;] when nullable. *)
Definition fieldText (field : FieldDefinition) : string :=
  if strings.HasSuffix (fieldType field) "!"
  then "  " +:+ fieldName field +:+ ": " +:+ tsType (fieldType field) +:+ ";" +:+ LF
  else "  " +:+ fieldName field +:+ "?: Nullable<" +:+ tsType (fieldType field)
       +:+ ">;" +:+ LF.

Definition interfaceText (name : string) (fields : list FieldDefinition)
  : string :=
  "export interface " +:+ name +:+ " {" +:+ LF
  +:+ concatText (fieldText <$> fields) +:+ "}" +:+ LF +:+ LF.

Definition enumValueText (value : EnumValueDefinition) : string :=
  "  " +:+ enumValueName value +:+ " = '" +:+ enumValueName value +:+ "'," +:+ LF.

Definition enumText (enum : Definition_) : string :=
  "export enum " +:+ defName enum +:+ " {" +:+ LF
  +:+ concatText (enumValueText <$> defEnumValues enum) +:+ "}" +:+ LF +:+ LF.

Definition headerText : string :=
  "/*" +:+ LF +:+
  " * -------------------------------------------------------" +:+ LF +:+
  " * THIS FILE WAS AUTOMATICALLY GENERATED (DO NOT MODIFY)" +:+ LF +:+
  " * -------------------------------------------------------" +:+ LF +:+
  " */" +:+ LF +:+ LF +:+
  "/* tslint:disable */" +:+ LF +:+
  "/* eslint-disable */" +:+ LF +:+ LF +:+
  "type Nullable<T> = T | null;" +:+ LF +:+ LF.

(** What [generateTypeInterface] writes for any stored value, whatever its
    kind: the opening line only for an object or an interface. *)
Definition typeInterfaceText (typeInfo : TypeInfo) : string :=
  (if bool_decide (defKind (tiDefinition typeInfo) = Object) then
     "export interface " +:+ tiName typeInfo +:+ " {" +:+ LF
   else if bool_decide (defKind (tiDefinition typeInfo) = Interface) then
     "export interface " +:+ tiName typeInfo +:+ " {" +:+ LF
   else "")
  +:+ concatText (fieldText <$> defFields (tiDefinition typeInfo))
  +:+ "}" +:+ LF +:+ LF.

(** What a resolver pass may do to the pending set: add registered types. *)
Definition grows (g : Globals) (m m' : Marks) : Prop :=
  dom m.2 ⊆ dom m'.2 ∧ dom m'.2 ⊆ dom m.2 ∪ dom (types g).

Definition enumsText (range : Schedule) (g : Globals) : string :=
  concatText ((λ kv, enumText kv.2) <$> range _ EnumsLoop (enums g)).

Definition typesText (range : Schedule) (g : Globals) : string :=
  concatText ((λ kv, interfaceText kv.1 (defFields (tiDefinition kv.2)))
              <$> range _ TypesLoop (types g)).

Definition rootText (range : Schedule) (rootName : string)
  (fields : gmap string FieldDefinition) : string :=
  if decide (fields = ∅) then ""
  else interfaceText rootName (snd <$> range _ (RootLoop rootName) fields).

Definition requestType (g : Globals) (ref : string) : string :=
  default "" (determineFieldType g ref).

Definition requestFieldText (g : Globals) (field : FieldDefinition) : string :=
  if strings.HasSuffix (fieldType field) "!"
  then "  " +:+ fieldName field +:+ ": " +:+ requestType g (fieldType field)
       +:+ ";" +:+ LF
  else "  " +:+ fieldName field +:+ "?: " +:+ requestType g (fieldType field)
       +:+ ";" +:+ LF.

Definition requestInterfaceText (g : Globals) (typeName : string) : string :=
  match types g !! typeName with
  | Some typeInfo =>
      "export interface " +:+ (typeName +:+ "Request") +:+ " {" +:+ LF
      +:+ concatText (requestFieldText g <$> defFields (tiDefinition typeInfo))
      +:+ "}" +:+ LF +:+ LF
  | None => ""
  end.

Definition requestsText (range : Schedule) (g : Globals)
  (deferredInterfaces : gmap string bool) : string :=
  concatText ((λ kv, requestInterfaceText g kv.1)
              <$> range _ RequestLoop deferredInterfaces).

(** What ingestion guarantees of every registered type: it is stored under
    its own name and is an object or an interface. *)
Definition registryInvariant (g : Globals) : Prop :=
  ∀ name typeInfo, types g !! name = Some typeInfo →
    tiName typeInfo = name ∧ defName (tiDefinition typeInfo) = name ∧
    (defKind (tiDefinition typeInfo) = Object
     ∨ defKind (tiDefinition typeInfo) = Interface).

(** A registered name that the resolver's unwrapping leaves as it is: true
    of every GraphQL name, which has no [!] and no brackets. *)
Definition plainNames (g : Globals) : Prop :=
  ∀ name, is_Some (types g !! name) → extractCleanType name = Some name.

(** ** The first [generateTypescriptFile] of [main.go] (lines 191-272)

    [main.go] holds an earlier copy of the program before the one modelled
    above; its [generateTypescriptFile] writes straight to the file and has
    no request interfaces.  Its field loops have the body [writeField];
    [createErr] is the error of [os.Create], if any. *)

Section FirstGenerator.

Variable range : Schedule.

Definition generateTypescriptFile_first (createErr : option string)
  (g : Globals) : option (result string) :=
  match createErr with
  | Some err => Some (Err ("could not create file: " +:+ err))
  | None =>
  let file := "" in
  let file := WriteString file
    ("/*" +:+ LF +:+
     " * -------------------------------------------------------" +:+ LF +:+
     " * THIS FILE WAS AUTOMATICALLY GENERATED (DO NOT MODIFY)" +:+ LF +:+
     " * -------------------------------------------------------" +:+ LF +:+
     " */" +:+ LF +:+ LF +:+
     "/* tslint:disable */" +:+ LF +:+
     "/* eslint-disable */" +:+ LF +:+ LF) in
  let file := WriteString file ("type Nullable<T> = T | null;" +:+ LF +:+ LF) in
  let file :=
    foldl
      (λ file '(_, enum),
         let file :=
           WriteString file ("export enum " +:+ defName enum +:+ " {" +:+ LF) in
         let file :=
           foldl (λ file value,
                    WriteString file
                      ("  " +:+ enumValueName value +:+ " = '"
                       +:+ enumValueName value +:+ "'," +:+ LF))
                 file (defEnumValues enum) in
         WriteString file ("}" +:+ LF +:+ LF))
      file (range _ EnumsLoop (enums g)) in
  file ←
    foldOption
      (λ file '(_, typeInfo),
         let file :=
           if bool_decide (defKind (tiDefinition typeInfo) = Object) then
             WriteString file
               ("export interface " +:+ tiName typeInfo +:+ " {" +:+ LF)
           else if bool_decide (defKind (tiDefinition typeInfo) = Interface) then
             WriteString file
               ("export interface " +:+ tiName typeInfo +:+ " {" +:+ LF)
           else file in
         file ← foldOption writeField file (defFields (tiDefinition typeInfo));
         Some (WriteString file ("}" +:+ LF +:+ LF)))
      file (range _ TypesLoop (types g));
  file ←
    (if 0 <? size (queries g) then
       let file := WriteString file ("export interface Query {" +:+ LF) in
       file ← foldOption (λ file '(_, query), writeField file query) file
                (range _ (RootLoop "Query") (queries g));
       Some (WriteString file ("}" +:+ LF +:+ LF))
     else Some file);
  file ←
    (if 0 <? size (mutations g) then
       let file := WriteString file ("export interface Mutation {" +:+ LF) in
       file ← foldOption (λ file '(_, mutation), writeField file mutation) file
                (range _ (RootLoop "Mutation") (mutations g));
       Some (WriteString file ("}" +:+ LF +:+ LF))
     else Some file);
  Some (Ok file)
  end.

End FirstGenerator.

(** ** Well-formed type references

    The texts that [field.Type.String()] returns for a parsed schema: a
    name, or a bracketed reference, each with an optional trailing [!]. *)

Inductive TypeRef :=
  | NamedRef (name : string) (nonNull : bool)
  | ListRef (elem : TypeRef) (nonNull : bool).

Definition markerText (nonNull : bool) : string := if nonNull then "!" else "".

Fixpoint refText (t : TypeRef) : string :=
  match t with
  | NamedRef name nonNull => name +:+ markerText nonNull
  | ListRef elem nonNull => ("[" +:+ refText elem +:+ "]") +:+ markerText nonNull
  end.

Definition refNonNull (t : TypeRef) : bool :=
  match t with
  | NamedRef _ nonNull => nonNull
  | ListRef _ nonNull => nonNull
  end.

(** The reference without its own trailing marker. *)
Definition bareText (t : TypeRef) : string :=
  match t with
  | NamedRef name _ => name
  | ListRef elem _ => "[" +:+ refText elem +:+ "]"
  end.

Fixpoint baseName (t : TypeRef) : string :=
  match t with
  | NamedRef name _ => name
  | ListRef elem _ => baseName elem
  end.

(** A name as the parser gives it has no marker at its end and no bracket
    at its start. *)
Definition plainName (name : string) : Prop :=
  strings.HasSuffix name "!" = false ∧ strings.HasPrefix name "[" = false.

(** One [Array<...>] per list level around the mapped base name. *)
Fixpoint tsExpression (t : TypeRef) : string :=
  match t with
  | NamedRef name _ => scalarToTs name
  | ListRef elem _ => "Array<" +:+ tsExpression elem +:+ ">"
  end.

(** What [determineFieldType] computes, by the depth of the reference. *)
Definition requestExpression (g : Globals) (t : TypeRef) : string :=
  match t with
  | NamedRef name _ | ListRef (NamedRef name _) _ =>
      if isObjectType g name then name +:+ "Request" else "boolean | number"
  | ListRef (ListRef (NamedRef name _) _) _ =>
      if isObjectType g name then "Array<" +:+ name +:+ "Request>"
      else "Array<boolean | number>"
  | ListRef (ListRef (ListRef _ _) _) _ => "Array<boolean | number>"
  end.

(** What the resolver's test [isObjectOrArrayOfObjects] answers, by the
    depth of the reference: a registered name, bare or one list deep. *)
Definition marksObject (g : Globals) (t : TypeRef) : bool :=
  match t with
  | NamedRef name _ | ListRef (NamedRef name _) _ => isObjectType g name
  | ListRef (ListRef _ _) _ => false
  end.

(** ** Further views of the registry *)

(** The registry keeps what it had: every entry of [g] is an entry of [h]. *)
Definition keptIn (g h : Globals) : Prop :=
  types g ⊆ types h ∧ enums g ⊆ enums h.

(** What ingestion guarantees of the whole registry. *)
Definition registryWellFormed (g : Globals) : Prop :=
  registryInvariant g ∧
  types g !! "Query" = None ∧ types g !! "Mutation" = None ∧
  (∀ name enum, enums g !! name = Some enum →
     defName enum = name ∧ defKind enum = Enum) ∧
  (∀ name field, queries g !! name = Some field → fieldName field = name) ∧
  (∀ name field, mutations g !! name = Some field → fieldName field = name).

Definition typeConflict (name : string) : string :=
  "error: type or interface " +:+ name +:+ " has conflicting definitions".

Definition enumConflict (name : string) : string :=
  "error: enum " +:+ name +:+ " has conflicting definitions".

(** Every registered type name marked [true]. *)
Definition pendingAll (g : Globals) : gmap string bool := (λ _, true) <$> types g.

(** The names of the definitions in the files are plain, as the names the
    parser gives are. *)
Definition plainFiles (files : list SchemaFile) : Prop :=
  ∀ schemaTypes typ, Parsed schemaTypes ∈ files → typ ∈ schemaTypes →
    plainName (defName typ).

(** The files that the walk hands to [processSchemaFile]. *)
Definition walkedFiles (walk : list WalkEntry) : list SchemaFile :=
  walk ≫= λ entry,
    match entry with
    | WalkFile name file =>
        if strings.HasSuffix name ".graphql" then [file] else []
    | _ => []
    end.

(** A definition that the registry already holds: processing it again
    succeeds and changes neither the types nor the enums. *)
Definition absorbs (skipChecks : bool) (g : Globals) (typ : Definition_) : Prop :=
  ∃ g', processType skipChecks g typ = Ok g' ∧
        types g' = types g ∧ enums g' = enums g.

(** A [map[string]bool] in which every key present reads as [true]. *)
Definition allTrue (m : gmap string bool) : Prop :=
  ∀ k b, m !! k = Some b → b = true.

(** ** Sample schemas *)

Definition userDef : Definition_ :=
  mkDefinition Object "User" [mkField "id" "ID!"; mkField "name" "String"] [].
Definition projectDef : Definition_ :=
  mkDefinition Object "Project" [mkField "id" "ID!"; mkField "owner" "User!"] [].
Definition queryDef : Definition_ :=
  mkDefinition Object "Query" [mkField "getProjects" "[Project!]!"] [].
Definition mutationDef : Definition_ :=
  mkDefinition Object "Mutation" [mkField "createUser" "User!"] [].
Definition statusDef : Definition_ :=
  mkDefinition Enum "Status" [] [mkEnumValue "ACTIVE"; mkEnumValue "INACTIVE"].
Definition nodeDef : Definition_ :=
  mkDefinition Object "Node" [mkField "parent" "Node"] [].
Definition fooStringDef : Definition_ :=
  mkDefinition Object "Foo" [mkField "a" "String"] [].
Definition fooIntDef : Definition_ :=
  mkDefinition Object "Foo" [mkField "a" "Int"] [].

Definition sampleFile : SchemaFile :=
  Parsed [userDef; projectDef; queryDef; mutationDef; statusDef].

Definition collidingFiles : list SchemaFile :=
  [Parsed [mkDefinition Object "Query" [mkField "a" "String"] []];
   Parsed [mkDefinition Object "Query" [mkField "a" "Int"] []]].

Definition registryOf (defs : list Definition_) : Globals :=
  mkGlobals (list_to_map ((λ def, (defName def, mkTypeInfo (defName def) def)) <$> defs))
            ∅ ∅ ∅.

Definition nodeGlobals : Globals := registryOf [nodeDef].
Definition userGlobals : Globals := registryOf [userDef].
Definition fooGlobals : Globals := registryOf [fooStringDef].

(** * Properties *)

(** ** Strings *)

Section StringFacts.

Implicit Types s t p r : string.

Lemma app_nil_l s : "" +:+ s = s.
Proof. reflexivity. Qed.

Lemma app_cons c s t : String c s +:+ t = String c (s +:+ t).
Proof. reflexivity. Qed.

Lemma app_nil_r s : s +:+ "" = s.
Proof. induction s as [|c s IH]; [done|]. by rewrite app_cons, IH. Qed.

Lemma app_assoc s t r : (s +:+ t) +:+ r = s +:+ (t +:+ r).
Proof. induction s as [|c s IH]; [done|]. by rewrite !app_cons, IH. Qed.

Lemma len_nil : strings.len "" = 0.
Proof. reflexivity. Qed.

Lemma len_cons c s : strings.len (String c s) = S (strings.len s).
Proof. reflexivity. Qed.

Lemma len_app s t : strings.len (s +:+ t) = strings.len s + strings.len t.
Proof.
  induction s as [|c s IH]; [done|].
  rewrite app_cons, !len_cons, IH. done.
Qed.

Lemma substring_0_0 s : String.substring 0 0 s = "".
Proof. by destruct s. Qed.

Lemma substring_prefix s t : String.substring 0 (strings.len s) (s +:+ t) = s.
Proof.
  induction s as [|c s IH]; [apply substring_0_0|].
  rewrite app_cons, len_cons. simpl. by rewrite IH.
Qed.

Lemma substring_skip s t n :
  String.substring (strings.len s) n (s +:+ t) = String.substring 0 n t.
Proof. induction s as [|c s IH]; [done|]. rewrite app_cons, len_cons. apply IH. Qed.

Lemma substring_all s : String.substring 0 (strings.len s) s = s.
Proof. rewrite <-(app_nil_r s) at 2. apply substring_prefix. Qed.

Lemma substring_split s n :
  n ≤ strings.len s →
  String.substring 0 n s +:+ String.substring n (strings.len s - n) s = s.
Proof.
  revert n. induction s as [|c s IH]; intros [|n] Hn;
    unfold strings.len in *; simpl in *; try done.
  - rewrite app_nil_l. f_equal. apply (substring_all s).
  - rewrite app_cons. f_equal. apply IH. lia.
Qed.

Lemma len_substring_le s n m : strings.len (String.substring n m s) ≤ m.
Proof.
  revert n m. induction s as [|c s IH]; intros [|n] [|m]; simpl;
    try (unfold strings.len; simpl; lia).
  - specialize (IH 0 m). unfold strings.len in *. simpl. lia.
  - apply IH.
  - apply IH.
Qed.

Lemma HasSuffix_app p t : strings.HasSuffix (p +:+ t) t = true.
Proof.
  unfold strings.HasSuffix. rewrite len_app.
  apply andb_true_iff. split; [apply Nat.leb_le; lia|].
  replace (strings.len p + strings.len t - strings.len t) with (strings.len p) by lia.
  rewrite substring_skip, substring_all. apply String.eqb_refl.
Qed.

Lemma HasSuffix_inv s t :
  strings.HasSuffix s t = true →
  s = String.substring 0 (strings.len s - strings.len t) s +:+ t.
Proof.
  unfold strings.HasSuffix. intros [Hle Heq]%andb_true_iff.
  apply Nat.leb_le in Hle. apply String.eqb_eq in Heq.
  rewrite <-(substring_split s (strings.len s - strings.len t)) at 1 by lia.
  f_equal.
  replace (strings.len s - (strings.len s - strings.len t)) with (strings.len t)
    by lia.
  done.
Qed.

Lemma HasSuffix_spec s t : strings.HasSuffix s t = true ↔ ∃ p, s = p +:+ t.
Proof.
  split.
  - intros H. eexists. by apply HasSuffix_inv.
  - intros [p ->]. apply HasSuffix_app.
Qed.

Lemma HasPrefix_app p t : strings.HasPrefix (p +:+ t) p = true.
Proof.
  unfold strings.HasPrefix. rewrite len_app, substring_prefix, String.eqb_refl.
  apply andb_true_iff. split; [apply Nat.leb_le; lia|done].
Qed.

Lemma HasPrefix_spec s p : strings.HasPrefix s p = true ↔ ∃ r, s = p +:+ r.
Proof.
  split.
  - unfold strings.HasPrefix. intros [Hle Heq]%andb_true_iff.
    apply Nat.leb_le in Hle. apply String.eqb_eq in Heq.
    exists (String.substring (strings.len p) (strings.len s - strings.len p) s).
    rewrite <-(substring_split s (strings.len p)) at 1 by done.
    by rewrite Heq.
  - intros [r ->]. apply HasPrefix_app.
Qed.

Lemma TrimSuffix_app p t : strings.TrimSuffix (p +:+ t) t = p.
Proof.
  unfold strings.TrimSuffix. rewrite HasSuffix_app, len_app.
  replace (strings.len p + strings.len t - strings.len t) with (strings.len p) by lia.
  apply substring_prefix.
Qed.

Lemma TrimSuffix_id s t : strings.HasSuffix s t = false → strings.TrimSuffix s t = s.
Proof. unfold strings.TrimSuffix. by intros ->. Qed.

Lemma TrimSuffix_len s t : strings.len (strings.TrimSuffix s t) ≤ strings.len s.
Proof.
  unfold strings.TrimSuffix. destruct (strings.HasSuffix s t); [|done].
  etrans; [apply len_substring_le|lia].
Qed.

(** A string cannot end in two different bytes. *)
Lemma app_singleton_inj s t a b :
  s +:+ String a "" = t +:+ String b "" → s = t ∧ a = b.
Proof.
  revert t. induction s as [|c s IH]; intros [|d t] H;
    rewrite ?app_cons, ?app_nil_l in H.
  - by inversion H.
  - inversion H as [[Hc Ht]]. destruct t; discriminate.
  - inversion H as [[Hc Hs]]. destruct s; discriminate.
  - inversion H as [[Hc Hs]]. apply IH in Hs as [-> ->]. done.
Qed.

Lemma HasSuffix_other s a b :
  a ≠ b → strings.HasSuffix (s +:+ String a "") (String b "") = false.
Proof.
  intros Hab. apply not_true_is_false. intros [p Hp]%HasSuffix_spec.
  apply app_singleton_inj in Hp as [_ ?]. done.
Qed.

(** A text that starts with [[] and ends with []] has an interior, and the
    slice [s[1 : len(s)-1]] is in range and returns it. *)
Lemma slice_brackets s :
  strings.HasPrefix s "[" = true → strings.HasSuffix s "]" = true →
  ∃ inner, s = "[" +:+ inner +:+ "]" ∧
           strings.slice s 1 (strings.len s - 1) = Some inner.
Proof.
  intros [r ->]%HasPrefix_spec [p Hp]%HasSuffix_spec.
  destruct p as [|c p]; [by inversion Hp|].
  rewrite !app_cons, app_nil_l in Hp. inversion Hp as [[Hc Hr]]. subst c r.
  exists p. split; [done|].
  assert (strings.len ("[" +:+ p +:+ "]") = S (S (strings.len p))) as Hlen.
  { rewrite app_cons, app_nil_l, len_cons, len_app.
    unfold strings.len; simpl; lia. }
  unfold strings.slice. rewrite Hlen.
  replace (S (S (strings.len p)) - 1) with (S (strings.len p)) by lia.
  replace ((1 <=? S (strings.len p))
           && (S (strings.len p) <=? S (S (strings.len p))))
    with true by (symmetry; apply andb_true_iff; split; apply Nat.leb_le; lia).
  replace (S (strings.len p) - 1) with (strings.len p) by lia.
  rewrite app_cons, app_nil_l. simpl. by rewrite substring_prefix.
Qed.

Lemma slice_brackets_app inner :
  strings.slice ("[" +:+ inner +:+ "]") 1 (strings.len ("[" +:+ inner +:+ "]") - 1)
  = Some inner.
Proof.
  destruct (slice_brackets ("[" +:+ inner +:+ "]")) as (i & Hi & ->).
  - apply HasPrefix_app.
  - rewrite <-app_assoc. apply HasSuffix_app.
  - f_equal. rewrite !app_cons, !app_nil_l in Hi. inversion Hi as [Hi'].
    apply app_singleton_inj in Hi' as [? _]. done.
Qed.

End StringFacts.

(** ** Type Reference Translator *)

Section Translator.

Lemma bracketed_inv s :
  bracketed s = true →
  ∃ inner, s = "[" +:+ inner +:+ "]" ∧
           strings.slice s 1 (strings.len s - 1) = Some inner.
Proof. intros [??]%andb_true_iff. by apply slice_brackets. Qed.

Lemma bracketed_app inner : bracketed ("[" +:+ inner +:+ "]") = true.
Proof.
  apply andb_true_iff. split; [apply HasPrefix_app|].
  rewrite <-app_assoc. apply HasSuffix_app.
Qed.

Lemma len_brackets inner :
  strings.len ("[" +:+ inner +:+ "]") = S (S (strings.len inner)).
Proof. rewrite !len_app. unfold strings.len; simpl; lia. Qed.

Lemma convert_fuel_S fuel s :
  convertGraphqlTypeToTs_fuel (S fuel) s
  = convertStep (convertGraphqlTypeToTs_fuel fuel) s.
Proof. reflexivity. Qed.

(** Enough fuel gives a result: the interior of a bracketed text is two
    bytes shorter than the text. *)
Lemma convert_fuel_total fuel : ∀ s,
  strings.len s < fuel → is_Some (convertGraphqlTypeToTs_fuel fuel s).
Proof.
  induction fuel as [|fuel IH]; intros s Hlen; [lia|].
  rewrite convert_fuel_S. unfold convertStep.
  pose proof (TrimSuffix_len s "!") as Htrim.
  destruct (bracketed _) eqn:Hb; [|done].
  apply bracketed_inv in Hb as (inner & Heq & ->). simpl.
  destruct (IH inner) as [r ->]; [|done].
  rewrite Heq, len_brackets in Htrim. lia.
Qed.

(** The result does not depend on how much fuel was left over. *)
Lemma convert_fuel_irrel n : ∀ m s,
  strings.len s < n → strings.len s < m →
  convertGraphqlTypeToTs_fuel n s = convertGraphqlTypeToTs_fuel m s.
Proof.
  induction n as [|n IH]; intros [|m] s Hn Hm; try lia.
  rewrite !convert_fuel_S. unfold convertStep.
  pose proof (TrimSuffix_len s "!") as Htrim.
  destruct (bracketed _) eqn:Hb; [|done].
  apply bracketed_inv in Hb as (inner & Heq & ->). simpl.
  rewrite Heq, len_brackets in Htrim.
  rewrite (IH m inner) by lia. done.
Qed.

(** [convertGraphqlTypeToTs] satisfies the equation of the Go function. *)
Lemma convertGraphqlTypeToTs_unfold s :
  convertGraphqlTypeToTs s = convertStep convertGraphqlTypeToTs s.
Proof.
  unfold convertGraphqlTypeToTs at 1. rewrite convert_fuel_S. unfold convertStep.
  pose proof (TrimSuffix_len s "!") as Htrim.
  destruct (bracketed _) eqn:Hb; [|done].
  apply bracketed_inv in Hb as (inner & Heq & ->). simpl.
  rewrite Heq, len_brackets in Htrim.
  unfold convertGraphqlTypeToTs.
  rewrite (convert_fuel_irrel (strings.len s) (S (strings.len inner)) inner) by lia.
  done.
Qed.

Lemma convertGraphqlTypeToTs_total s : is_Some (convertGraphqlTypeToTs s).
Proof. apply convert_fuel_total. lia. Qed.

(** The result depends on the reference only through its text without the
    trailing marker. *)
Lemma convertGraphqlTypeToTs_clean s t :
  strings.TrimSuffix s "!" = strings.TrimSuffix t "!" →
  convertGraphqlTypeToTs s = convertGraphqlTypeToTs t.
Proof.
  intros H. rewrite (convertGraphqlTypeToTs_unfold s), (convertGraphqlTypeToTs_unfold t).
  unfold convertStep. by rewrite H.
Qed.

Lemma TrimSuffix_closing inner :
  strings.TrimSuffix ("[" +:+ inner +:+ "]") "!" = "[" +:+ inner +:+ "]".
Proof.
  apply TrimSuffix_id. rewrite <-app_assoc. by apply HasSuffix_other.
Qed.

(** A list reference translates to [Array<...>] around the translation of
    its interior. *)
Lemma convertGraphqlTypeToTs_list inner :
  convertGraphqlTypeToTs ("[" +:+ inner +:+ "]")
  = (e ← convertGraphqlTypeToTs inner; Some ("Array<" +:+ e +:+ ">")).
Proof.
  rewrite convertGraphqlTypeToTs_unfold. unfold convertStep.
  rewrite TrimSuffix_closing, bracketed_app, slice_brackets_app. done.
Qed.

Lemma HasSuffix_closing inner :
  strings.HasSuffix ("[" +:+ inner +:+ "]") "!" = false.
Proof. rewrite <-app_assoc. by apply HasSuffix_other. Qed.

End Translator.

(** C6. The translator returns a result for every text, well formed or
    not, and a field is rendered as non-nullable ([name: T;]) exactly when
    its whole reference ends with [!], as nullable ([name?: Nullable<T>;])
    exactly when it does not. *)
Theorem translator_total_nullability (buffer name ref : string) :
  ∃ expr,
    convertGraphqlTypeToTs ref = Some expr ∧
    (strings.HasSuffix ref "!" = true ↔ ∃ p, ref = p +:+ "!") ∧
    writeField buffer (mkField name ref)
    = Some (buffer +:+
            (if strings.HasSuffix ref "!"
             then "  " +:+ name +:+ ": " +:+ expr +:+ ";" +:+ LF
             else "  " +:+ name +:+ "?: Nullable<" +:+ expr +:+ ">;" +:+ LF)).
Proof.
  destruct (convertGraphqlTypeToTs_total ref) as [expr Hexpr].
  exists expr. split; [done|]. split; [apply HasSuffix_spec|].
  unfold writeField, WriteString. simpl. rewrite Hexpr. simpl.
  by destruct (strings.HasSuffix ref "!").
Qed.

(** C9. [[[String!]]!] is non-nullable and translates to
    [Array<Array<string>>]. *)
Theorem translate_nested_list_of_strings (buffer name : string) :
  convertGraphqlTypeToTs "[[String!]]!" = Some "Array<Array<string>>" ∧
  strings.HasSuffix "[[String!]]!" "!" = true ∧
  writeField buffer (mkField name "[[String!]]!")
  = Some (buffer +:+ "  " +:+ name +:+ ": Array<Array<string>>;" +:+ LF).
Proof. repeat split. Qed.



(** ** Schema Registry *)

Section Registry.

Lemma compareFieldLists_false a : ∀ b,
  compareFieldLists a b = false → ∃ i, differAt a b i.
Proof.
  induction a as [|fa a IH]; intros [|fb b] H; simpl in H; try done.
  destruct (String.eqb_spec (fieldName fa) (fieldName fb)) as [Hn|Hn]; simpl in H.
  - destruct (String.eqb_spec (fieldType fa) (fieldType fb)) as [Ht|Ht]; simpl in H.
    + destruct (IH _ H) as [i Hi]. exists (S i). exact Hi.
    + exists 0, fa, fb. auto.
  - exists 0, fa, fb. auto.
Qed.

Lemma compareFieldLists_true a : ∀ b i,
  compareFieldLists a b = true → ¬ differAt a b i.
Proof.
  induction a as [|fa a IH]; intros [|fb b] i H (xa & xb & Ha & Hb & Hd);
    simpl in H; try done.
  destruct (String.eqb_spec (fieldName fa) (fieldName fb)) as [Hn|Hn];
    simpl in H; [|done].
  destruct (String.eqb_spec (fieldType fa) (fieldType fb)) as [Ht|Ht];
    simpl in H; [|done].
  destruct i as [|i]; simpl in Ha, Hb.
  - simplify_eq. tauto.
  - apply (IH b i H). by exists xa, xb.
Qed.

(** [compareDefinitions] is the positional comparison: it fails exactly on
    different lengths or on a position with a different name or type text. *)
Lemma compareDefinitions_false a b :
  compareDefinitions a b = false ↔
  length (defFields a) ≠ length (defFields b) ∨
  ∃ i, differAt (defFields a) (defFields b) i.
Proof.
  unfold compareDefinitions.
  destruct (Nat.eqb_spec (length (defFields a)) (length (defFields b))) as [Hl|Hl];
    simpl.
  - split.
    + intros H. right. by apply compareFieldLists_false.
    + intros [?|[i Hi]]; [done|].
      destruct (compareFieldLists _ _) eqn:Hc; [|done].
      by apply compareFieldLists_true with (i := i) in Hc.
  - split; auto.
Qed.

Lemma addRootFields_lookup name fields : ∀ m,
  addRootFields fields m !! name
  = from_option Some (m !! name) (lastNamed name fields).
Proof.
  unfold addRootFields, lastNamed.
  induction fields as [|f fields IH]; intros m; [done|].
  simpl. rewrite IH. rewrite filter_cons.
  destruct (decide (fieldName f = name)) as [Hn|Hn].
  - rewrite last_cons. destruct (last _); [done|]. simpl.
    by rewrite <-Hn, lookup_insert_eq.
  - destruct (last _); [done|]. simpl. by rewrite lookup_insert_ne.
Qed.

Lemma lastNamed_app name l1 l2 :
  lastNamed name (l1 ++ l2)
  = from_option Some (lastNamed name l1) (lastNamed name l2).
Proof.
  unfold lastNamed. rewrite filter_app, last_app. by destruct (last _).
Qed.

Lemma addTypeOrInterface_roots sk g def g' :
  addTypeOrInterface sk g def = Ok g' →
  queries g' = queries g ∧ mutations g' = mutations g.
Proof.
  unfold addTypeOrInterface. intros H.
  destruct (types g !! defName def); [destruct (_ && _)|]; by simplify_eq.
Qed.

Lemma addEnum_roots sk g def g' :
  addEnum sk g def = Ok g' →
  queries g' = queries g ∧ mutations g' = mutations g.
Proof.
  unfold addEnum. intros H.
  destruct (enums g !! defName def); [destruct (_ && _)|]; by simplify_eq.
Qed.

Lemma processType_roots sk g typ g' :
  processType sk g typ = Ok g' →
  (∀ name, queries g' !! name
     = from_option Some (queries g !! name)
         (lastNamed name (rootFieldsOfType "Query" typ))) ∧
  (∀ name, mutations g' !! name
     = from_option Some (mutations g !! name)
         (lastNamed name (rootFieldsOfType "Mutation" typ))).
Proof.
  unfold processType, rootFieldsOfType. intros H.
  destruct (bool_decide (defKind typ = Object) || bool_decide (defKind typ = Interface))
    eqn:Hk; simpl in *.
  - assert (bool_decide (defKind typ = Enum) = false) as HE.
    { apply bool_decide_eq_false. intros He. rewrite He in Hk. done. }
    rewrite HE in H.
    destruct (String.eqb_spec (defName typ) "Query") as [Hq|Hq].
    + rewrite Hq. simpl in *. simplify_eq. simpl.
      split; intros name; [apply addRootFields_lookup|done].
    + destruct (String.eqb_spec (defName typ) "Mutation") as [Hm|Hm].
      * simpl in *. simplify_eq. simpl.
        split; intros name; [done|apply addRootFields_lookup].
      * destruct (addTypeOrInterface sk g typ) as [g1|] eqn:Ha; simpl in H; [|done].
        simplify_eq. apply addTypeOrInterface_roots in Ha as [-> ->]. done.
  - destruct (bool_decide (defKind typ = Enum)); simplify_eq; [|done].
    apply addEnum_roots in H as [-> ->]. done.
Qed.

Lemma processSchemaFile_roots sk file : ∀ g g',
  processSchemaFile sk g file = Ok g' →
  (∀ name, queries g' !! name
     = from_option Some (queries g !! name)
         (lastNamed name (rootFieldsOfFile "Query" file))) ∧
  (∀ name, mutations g' !! name
     = from_option Some (mutations g !! name)
         (lastNamed name (rootFieldsOfFile "Mutation" file))).
Proof.
  destruct file as [| |schemaTypes]; try done. simpl.
  induction schemaTypes as [|typ l IH]; intros g g' H; simpl in H.
  - by simplify_eq.
  - destruct (processType sk g typ) as [g1|] eqn:H1; simpl in H; [|done].
    apply processType_roots in H1 as [Hq Hm]. apply IH in H as [Hq' Hm'].
    split; intros name; rewrite bind_cons, lastNamed_app.
    + rewrite Hq', Hq. by destruct (lastNamed name (l ≫= _)).
    + rewrite Hm', Hm. by destruct (lastNamed name (l ≫= _)).
Qed.

Lemma processType_root_ok sk g typ :
  isRootType typ = true →
  ∃ g', processType sk g typ = Ok g' ∧ types g' = types g ∧ enums g' = enums g.
Proof.
  unfold isRootType, processType. intros [Hk Hn]%andb_true_iff. rewrite Hk.
  assert (bool_decide (defKind typ = Enum) = false) as HE.
  { apply bool_decide_eq_false. intros He. rewrite He in Hk. done. }
  destruct (String.eqb (defName typ) "Query"); simpl.
  - rewrite HE. eauto.
  - simpl in Hn. rewrite Hn. simpl. rewrite HE. eauto.
Qed.

End Registry.

(** C3. With checks on, re-adding a registered name is an error exactly
    when the field lists differ in length or at some position in name or
    type text, and otherwise leaves the registry as it is; with checks
    skipped it is never an error and the registered definition stays. *)
Theorem addTypeOrInterface_conflict_iff (g : Globals) (def : Definition_)
  (existing : TypeInfo) :
  types g !! defName def = Some existing →
  let a := defFields (tiDefinition existing) in
  let b := defFields def in
  ((∃ msg, addTypeOrInterface false g def = Err msg) ↔
   (length a ≠ length b ∨ ∃ i, differAt a b i)) ∧
  (¬ (length a ≠ length b ∨ ∃ i, differAt a b i) →
   addTypeOrInterface false g def = Ok g) ∧
  addTypeOrInterface true g def = Ok g ∧
  (∀ g0 def0, ∃ g1, addTypeOrInterface true g0 def0 = Ok g1).
Proof.
  intros Hex a b. unfold addTypeOrInterface. rewrite Hex. simpl.
  pose proof (compareDefinitions_false (tiDefinition existing) def) as Hcmp.
  fold a b in Hcmp.
  destruct (compareDefinitions (tiDefinition existing) def); simpl.
  - repeat split.
    + by intros [??].
    + intros H. apply Hcmp in H. done.
    + intros g0 def0. destruct (types g0 !! defName def0); eauto.
  - repeat split.
    + intros _. by apply Hcmp.
    + eauto.
    + intros H. destruct H. by apply Hcmp.
    + intros g0 def0. destruct (types g0 !! defName def0); eauto.
Qed.

(** C7. After a run of ingestion that ends without error, the entry of a
    root field name is the last field of that name that the ingested
    documents declare under that root (or the entry from before, when there
    is none), and a Query or Mutation definition is never an error. *)
Theorem root_fields_last_writer_wins (skipChecks : bool)
  (files : list SchemaFile) :
  ∀ g g',
  processSchemaFiles skipChecks g files = Ok g' →
  (∀ name, queries g' !! name
     = from_option Some (queries g !! name)
         (lastNamed name (rootFieldsOf "Query" files))) ∧
  (∀ name, mutations g' !! name
     = from_option Some (mutations g !! name)
         (lastNamed name (rootFieldsOf "Mutation" files))) ∧
  (∀ g0 typ, isRootType typ = true →
     ∃ g1, processType skipChecks g0 typ = Ok g1).
Proof.
  unfold processSchemaFiles, rootFieldsOf.
  induction files as [|file files IH]; intros g g' H; simpl in H.
  - simplify_eq. repeat split; try done.
    intros g0 typ Hr. destruct (processType_root_ok skipChecks g0 typ Hr) as (g1 & ? & _).
    eauto.
  - destruct (processSchemaFile skipChecks g file) as [g1|] eqn:H1; simpl in H; [|done].
    apply processSchemaFile_roots in H1 as [Hq Hm].
    apply IH in H as (Hq' & Hm' & Hok).
    split; [|split; [|done]]; intros name; rewrite bind_cons, lastNamed_app.
    + rewrite Hq', Hq. by destruct (lastNamed name (files ≫= _)).
    + rewrite Hm', Hm. by destruct (lastNamed name (files ≫= _)).
Qed.

Lemma addTypeOrInterface_conflict_iff_witness :
  types fooGlobals !! defName fooIntDef = Some (mkTypeInfo "Foo" fooStringDef) ∧
  (∃ msg, addTypeOrInterface false fooGlobals fooIntDef = Err msg) ∧
  addTypeOrInterface true fooGlobals fooIntDef = Ok fooGlobals.
Proof.
  assert (types fooGlobals !! defName fooIntDef
          = Some (mkTypeInfo "Foo" fooStringDef)) as H by (vm_compute; reflexivity).
  destruct (addTypeOrInterface_conflict_iff fooGlobals fooIntDef _ H)
    as (Hiff & _ & Hskip & _).
  split; [exact H|]. split; [|exact Hskip].
  apply Hiff. right. exists 0, (mkField "a" "String"), (mkField "a" "Int").
  repeat split. right. discriminate.
Defined.

Lemma root_fields_last_writer_wins_witness :
  ∃ g',
    processSchemaFiles false emptyGlobals collidingFiles = Ok g' ∧
    queries g' !! "a" = Some (mkField "a" "Int").
Proof.
  destruct (processSchemaFiles false emptyGlobals collidingFiles) as [g'|msg] eqn:H;
    [|vm_compute in H; discriminate].
  exists g'. split; [reflexivity|].
  destruct (root_fields_last_writer_wins false collidingFiles emptyGlobals g' H)
    as (Hq & _).
  rewrite Hq. vm_compute. reflexivity.
Defined.

(** ** Request-Shape Resolver *)

Section Resolver.

Variable g : Globals.

Lemma foldOption_rel {A B} (f : B → A → option B) (R : B → B → Prop)
  (Pre : B → Prop) :
  (∀ b, R b b) → (∀ a b c, R a b → R b c → R a c) →
  ∀ l b, Pre b →
    (∀ b a, a ∈ l → Pre b → ∃ b', f b a = Some b' ∧ R b b' ∧ Pre b') →
    ∃ b', foldOption f b l = Some b' ∧ R b b' ∧ Pre b'.
Proof.
  intros Hrefl Htrans. induction l as [|a l IH]; intros b Hb Hstep; simpl.
  - eauto.
  - destruct (Hstep b a) as (b1 & -> & HR1 & Hb1); [left|done|]. simpl.
    destruct (IH b1 Hb1) as (b2 & -> & HR2 & Hb2).
    + intros b' a' Ha'. apply Hstep. by right.
    + eauto.
Qed.

Lemma foldOption_fmap {A B C} (h : B → C) (f : B → A → option B)
  (f' : C → A → option C) :
  (∀ b a, h <$> f b a = f' (h b) a) →
  ∀ l b, h <$> foldOption f b l = foldOption f' (h b) l.
Proof.
  intros Hf. induction l as [|a l IH]; intros b; simpl; [done|].
  rewrite <-Hf. destruct (f b a) as [b1|]; simpl; [apply IH|done].
Qed.

Lemma extractCleanType_total s : is_Some (extractCleanType s).
Proof.
  unfold extractCleanType. fold (bracketed (strings.TrimSuffix s "!")).
  destruct (bracketed _) eqn:Hb; [|done].
  apply bracketed_inv in Hb as (inner & _ & ->). done.
Qed.

Lemma isObjectOrArrayOfObjects_total s : is_Some (isObjectOrArrayOfObjects g s).
Proof.
  unfold isObjectOrArrayOfObjects.
  destruct (extractCleanType_total s) as [c ->]. done.
Qed.

Lemma elem_of_marked (m : gmap string bool) k : k ∈ marked m ↔ mapIndex m k = true.
Proof.
  unfold marked, mapIndex. rewrite elem_of_dom. split.
  - intros [b [Hm Hb]%map_lookup_filter_Some]. simpl in Hb. subst. by rewrite Hm.
  - destruct (m !! k) as [[]|] eqn:E; simpl; try done.
    intros _. exists true. by apply map_lookup_filter_Some.
Qed.

Lemma marked_insert (m : gmap string bool) k :
  marked (<[k := true]> m) = {[k]} ∪ marked m.
Proof.
  apply set_eq. intros x.
  rewrite elem_of_union, elem_of_singleton, !elem_of_marked. unfold mapIndex.
  destruct (decide (x = k)) as [->|Hne].
  - rewrite lookup_insert_eq. simpl. tauto.
  - rewrite lookup_insert_ne by done. tauto.
Qed.

Lemma marked_empty : marked ∅ = ∅.
Proof. unfold marked. by rewrite map_filter_empty, dom_empty_L. Qed.

Lemma extends_refl st : extends g st st.
Proof. unfold extends. split; [done|]. split; [done|]. split; [set_solver|done]. Qed.

Lemma extends_trans st1 st2 st3 :
  extends g st1 st2 → extends g st2 st3 → extends g st1 st3.
Proof.
  unfold extends. intros (?&?&?&?) (?&?&?&?).
  split; [set_solver|]. split; [set_solver|]. split; [set_solver|]. auto.
Qed.

Lemma unvisited_size (T M M' : gset string) fuel :
  M ⊆ M' → size (T ∖ M) < fuel → size (T ∖ M') < fuel.
Proof.
  intros HM Hsz. eapply Nat.le_lt_trans; [|exact Hsz].
  apply subseteq_size. set_solver.
Qed.

(** Termination of the resolver: the registered types not yet visited bound
    the depth of the recursion, and every call extends the state. *)
Lemma bufferRequestInterface_traced_spec fuel : ∀ returnType st,
  size (dom (types g) ∖ marked st.1.1) < fuel →
  ∃ st', bufferRequestInterface_traced g fuel returnType st = Some st' ∧
         extends g st st'.
Proof.
  induction fuel as [|fuel IH]; intros s [[P D] tr] Hsz; [lia|].
  simpl in *. destruct (extractCleanType_total s) as [c ->]. simpl.
  destruct (mapIndex P c) eqn:Hv.
  { eexists. split; [done|apply extends_refl]. }
  assert (c ∉ marked P) as Hc by (rewrite elem_of_marked, Hv; done).
  destruct (types g !! c) as [ti|] eqn:Hty.
  - assert (c ∈ dom (types g)) as HcT by (apply elem_of_dom; eauto).
    set (st1 := ((<[c := true]> P, <[c := true]> D), c :: tr)).
    assert (extends g ((P, D), tr) st1) as Hext.
    { unfold extends, traceOk, st1. simpl.
      rewrite marked_insert, dom_insert_L.
      split; [set_solver|]. split; [set_solver|]. split; [set_solver|].
      intros [Hnd Hin]. split.
      - apply NoDup_cons. split; [|done]. intros Hx. by apply Hc, Hin.
      - intros x [->|Hx]%elem_of_cons; [set_solver|]. apply Hin in Hx. set_solver. }
    assert (size (dom (types g) ∖ marked st1.1.1) < fuel) as Hsz1.
    { unfold st1. simpl. rewrite marked_insert.
      assert (dom (types g) ∖ ({[c]} ∪ marked P) ⊂ dom (types g) ∖ marked P) as Hsub
        by set_solver.
      apply subset_size in Hsub. lia. }
    destruct (foldOption_rel
      (λ st field,
         b ← isObjectOrArrayOfObjects g (fieldType field);
         if b : bool then bufferRequestInterface_traced g fuel (fieldType field) st
         else Some st)
      (extends g) (λ st, size (dom (types g) ∖ marked st.1.1) < fuel)
      extends_refl extends_trans (defFields (tiDefinition ti)) st1 Hsz1)
      as (st2 & Hfold & Hext2 & _).
    { intros b field _ Hb.
      destruct (isObjectOrArrayOfObjects_total (fieldType field)) as [[] ->]; simpl.
      - destruct (IH (fieldType field) b Hb) as (b' & -> & Hb').
        exists b'. split; [done|]. split; [done|].
        eapply unvisited_size; [apply Hb'|done].
      - exists b. split; [done|]. split; [apply extends_refl|done]. }
    exists st2. split; [exact Hfold|]. by eapply extends_trans.
  - eexists. split; [done|].
    unfold extends, traceOk. simpl. rewrite marked_insert.
    split; [set_solver|]. split; [set_solver|]. split; [set_solver|].
    intros [Hnd Hin]. split; [done|]. intros x Hx. apply Hin in Hx. set_solver.
Qed.

(** Dropping the history gives [bufferRequestInterface] itself. *)
Lemma bufferRequestInterface_traced_erase fuel : ∀ returnType st,
  fst <$> bufferRequestInterface_traced g fuel returnType st
  = bufferRequestInterface g fuel returnType st.1.
Proof.
  induction fuel as [|fuel IH]; intros s [[P D] tr]; [done|].
  simpl. destruct (extractCleanType s) as [c|]; simpl; [|done].
  destruct (mapIndex P c); [done|].
  destruct (types g !! c) as [ti|]; [|done].
  apply (foldOption_fmap fst). intros st field.
  destruct (isObjectOrArrayOfObjects g (fieldType field)) as [[]|]; simpl;
    [apply IH|done|done].
Qed.

Lemma resolverFuel_enough (P : gmap string bool) :
  size (dom (types g) ∖ marked P) < resolverFuel g.
Proof.
  unfold resolverFuel. rewrite <-size_dom.
  apply Nat.lt_succ_r, subseteq_size. set_solver.
Qed.

Lemma bufferRequestInterface_spec returnType P D :
  ∃ P' D',
    bufferRequestInterface g (resolverFuel g) returnType (P, D) = Some (P', D') ∧
    marked P ⊆ marked P' ∧ dom D ⊆ dom D' ∧ dom D' ⊆ dom D ∪ dom (types g).
Proof.
  destruct (bufferRequestInterface_traced_spec (resolverFuel g) returnType ((P, D), []))
    as ([[P' D'] tr'] & Htr & HP & HD & HD' & _); [apply resolverFuel_enough|].
  exists P', D'. rewrite <-(bufferRequestInterface_traced_erase _ _ ((P, D), [])).
  rewrite Htr. done.
Qed.

End Resolver.

(** ** Emitter *)

Section EmitterFacts.

Variable g : Globals.

#[local] Arguments bufferRequestInterface : simpl never.
#[local] Arguments resolverFuel : simpl never.

Lemma concatText_cons s l : concatText (s :: l) = s +:+ concatText l.
Proof. reflexivity. Qed.

Lemma foldl_text {A} (f : string → A → string) (text : A → string) :
  (∀ buf a, f buf a = buf +:+ text a) →
  ∀ l buf, foldl f buf l = buf +:+ concatText (text <$> l).
Proof.
  intros Hf. induction l as [|a l IH]; intros buf; simpl.
  - by rewrite app_nil_r.
  - by rewrite IH, Hf, app_assoc.
Qed.

Lemma foldOption_text {A} (f : string → A → option string) (text : A → string) :
  (∀ buf a, f buf a = Some (buf +:+ text a)) →
  ∀ l buf, foldOption f buf l = Some (buf +:+ concatText (text <$> l)).
Proof.
  intros Hf. induction l as [|a l IH]; intros buf; simpl.
  - by rewrite app_nil_r.
  - rewrite Hf. simpl. by rewrite IH, app_assoc.
Qed.

Lemma foldOption_text_state {A S} (f : string * S → A → option (string * S))
  (text : A → string) (R : S → S → Prop) :
  (∀ s, R s s) → (∀ a b c, R a b → R b c → R a c) →
  ∀ l buf s,
    (∀ buf s a, a ∈ l → ∃ s', f (buf, s) a = Some (buf +:+ text a, s') ∧ R s s') →
    ∃ s', foldOption f (buf, s) l = Some (buf +:+ concatText (text <$> l), s')
          ∧ R s s'.
Proof.
  intros Hrefl Htrans. induction l as [|a l IH]; intros buf s Hstep; simpl.
  - rewrite app_nil_r. eauto.
  - destruct (Hstep buf s a) as (s1 & -> & HR1); [left|]. simpl.
    destruct (IH (buf +:+ text a) s1) as (s2 & -> & HR2).
    + intros buf' s' a' Ha'. apply Hstep. by right.
    + rewrite app_assoc. eauto.
Qed.

Lemma grows_refl m : grows g m m.
Proof. unfold grows. split; [done|set_solver]. Qed.

Lemma grows_trans m1 m2 m3 : grows g m1 m2 → grows g m2 m3 → grows g m1 m3.
Proof. unfold grows. intros [??] [??]. split; set_solver. Qed.

Lemma bufferRequestInterface_grows returnType marks :
  ∃ marks', bufferRequestInterface g (resolverFuel g) returnType marks = Some marks'
            ∧ grows g marks marks'.
Proof.
  destruct marks as [P D].
  destruct (bufferRequestInterface_spec g returnType P D) as (P' & D' & -> & _ & ? & ?).
  exists (P', D'). done.
Qed.

Lemma writeFileHeader_text buffer : writeFileHeader buffer = buffer +:+ headerText.
Proof.
  unfold writeFileHeader, WriteString, headerText. rewrite !app_assoc. done.
Qed.

Lemma convertGraphqlTypeToTs_tsType ref :
  convertGraphqlTypeToTs ref = Some (tsType ref).
Proof.
  unfold tsType. by destruct (convertGraphqlTypeToTs_total ref) as [e ->].
Qed.

Lemma writeField_text buffer field :
  writeField buffer field = Some (buffer +:+ fieldText field).
Proof.
  unfold writeField, fieldText, WriteString.
  rewrite convertGraphqlTypeToTs_tsType. simpl.
  by destruct (strings.HasSuffix (fieldType field) "!").
Qed.

Lemma generateTypeInterface_text buffer typeInfo :
  generateTypeInterface buffer typeInfo
  = Some (buffer +:+ typeInterfaceText typeInfo).
Proof.
  unfold generateTypeInterface, typeInterfaceText, WriteString.
  rewrite (foldOption_text writeField fieldText) by (intros; apply writeField_text).
  simpl. f_equal.
  destruct (bool_decide _); [|destruct (bool_decide _)];
    rewrite ?app_assoc, ?app_nil_l; done.
Qed.

Lemma determineFieldType_total ref : is_Some (determineFieldType g ref).
Proof.
  unfold determineFieldType.
  destruct (extractCleanType_total ref) as [c ->]. simpl.
  fold (bracketed c). destruct (bracketed c) eqn:Hb.
  - apply bracketed_inv in Hb as (inner & _ & ->). simpl.
    by destruct (isObjectType g _).
  - by destruct (isObjectType g c).
Qed.

Lemma determineFieldType_requestType ref :
  determineFieldType g ref = Some (requestType g ref).
Proof.
  unfold requestType. by destruct (determineFieldType_total ref) as [e ->].
Qed.

Lemma writeRequestField_text buffer field :
  writeRequestField g buffer field = Some (buffer +:+ requestFieldText g field).
Proof.
  unfold writeRequestField, requestFieldText, WriteString.
  rewrite determineFieldType_requestType. simpl.
  by destruct (strings.HasSuffix (fieldType field) "!").
Qed.

Lemma markFields_grows fields : ∀ marks,
  ∃ marks',
    foldOption
      (λ marks field,
         b ← isObjectOrArrayOfObjects g (fieldType field);
         if b : bool then
           bufferRequestInterface g (resolverFuel g) (fieldType field) marks
         else Some marks)
      marks fields = Some marks' ∧ grows g marks marks'.
Proof.
  intros marks.
  destruct (foldOption_rel
    (λ marks field,
       b ← isObjectOrArrayOfObjects g (fieldType field);
       if b : bool then
         bufferRequestInterface g (resolverFuel g) (fieldType field) marks
       else Some marks)
    (grows g) (λ _, True) grows_refl grows_trans fields marks I)
    as (marks' & ? & ? & _); [|eauto].
  intros m field _ _.
  destruct (isObjectOrArrayOfObjects_total g (fieldType field)) as [[] ->]; simpl.
  - destruct (bufferRequestInterface_grows (fieldType field) m) as (m' & ? & ?). eauto.
  - exists m. eauto using grows_refl.
Qed.

Section Scheduled.

Variable range : Schedule.

Lemma generateEnums_text buffer :
  generateEnums range g buffer = buffer +:+ enumsText range g.
Proof.
  unfold generateEnums, enumsText.
  apply (foldl_text _ (λ kv, enumText kv.2)). intros buf [name enum]. simpl.
  unfold WriteString, enumText.
  rewrite (foldl_text _ enumValueText) by done.
  by rewrite !app_assoc.
Qed.

Lemma generateRequestInterfaces_text buffer deferredInterfaces :
  generateRequestInterfaces range g buffer deferredInterfaces
  = Some (buffer +:+ requestsText range g deferredInterfaces).
Proof.
  unfold generateRequestInterfaces, requestsText.
  apply (foldOption_text _ (λ kv, requestInterfaceText g kv.1)).
  intros buf [name b]. simpl. unfold requestInterfaceText.
  destruct (types g !! name) as [ti|]; [|by rewrite app_nil_r].
  rewrite (foldOption_text (writeRequestField g) (requestFieldText g))
    by (intros; apply writeRequestField_text).
  simpl. unfold WriteString. by rewrite !app_assoc.
Qed.

Lemma generateTypes_text buffer marks :
  ∃ marks',
    generateTypes range g buffer marks
    = Some (buffer +:+ concatText ((λ kv, typeInterfaceText kv.2)
                                   <$> range _ TypesLoop (types g)), marks')
    ∧ grows g marks marks'.
Proof.
  unfold generateTypes.
  apply (foldOption_text_state _ (λ kv : string * TypeInfo, typeInterfaceText kv.2)
           (grows g) grows_refl grows_trans).
  intros buf m [name ti] _. simpl.
  rewrite generateTypeInterface_text. simpl.
  destruct (markFields_grows (defFields (tiDefinition ti)) m) as (m' & -> & ?).
  simpl. eauto.
Qed.

Lemma generateRootInterfaces_text buffer fields rootName marks :
  ∃ marks',
    generateRootInterfaces range g buffer fields rootName marks
    = Some (buffer +:+ rootText range rootName fields, marks')
    ∧ grows g marks marks'.
Proof.
  unfold generateRootInterfaces, rootText.
  destruct (decide (fields = ∅)) as [->|Hne].
  { rewrite map_size_empty. simpl. rewrite app_nil_r. eauto using grows_refl. }
  assert ((0 <? size fields) = true) as ->.
  { apply Nat.ltb_lt. destruct (size fields) eqn:Hsz; [|lia].
    by apply map_size_empty_iff in Hsz. }
  destruct (foldOption_text_state
    (λ '(buffer, marks) '(_, field),
       buffer ← writeField buffer field;
       marks ← bufferRequestInterface g (resolverFuel g) (fieldType field) marks;
       Some (buffer, marks))
    (λ kv : string * FieldDefinition, fieldText kv.2)
    (grows g) grows_refl grows_trans
    (range _ (RootLoop rootName) fields)
    (WriteString buffer ("export interface " +:+ rootName +:+ " {" +:+ LF)) marks)
    as (marks' & -> & Hgrows).
  { intros buf m [name field] _. simpl. rewrite writeField_text. simpl.
    destruct (bufferRequestInterface_grows (fieldType field) m) as (m' & -> & ?).
    simpl. eauto. }
  simpl. exists marks'. split; [|done]. f_equal. f_equal.
  unfold WriteString, interfaceText. rewrite <-list_fmap_compose.
  by rewrite !app_assoc.
Qed.

End Scheduled.

End EmitterFacts.

(** ** The sweep and the whole resolution *)

Section Sweep.

Variable g : Globals.
Variable range : Schedule.

#[local] Arguments bufferRequestInterface : simpl never.
#[local] Arguments resolverFuel : simpl never.

Lemma mapIndex_dom (m : gmap string bool) k : mapIndex m k = true → k ∈ dom m.
Proof.
  unfold mapIndex. intros H. apply elem_of_dom.
  destruct (m !! k); [eauto|done].
Qed.

(** One entry of the sweep: it returns, adds only registered types to the
    pending set, and leaves a plain name pending. *)
Lemma sweepEntry_spec D k v :
  types g !! k = Some v →
  ∃ D1, sweepEntry g D (k, v) = Some D1 ∧
        dom D ⊆ dom D1 ∧ dom D1 ⊆ dom D ∪ dom (types g) ∧
        (extractCleanType k = Some k → k ∈ dom D1).
Proof.
  intros Hk. unfold sweepEntry, isObjectOrArrayOfObjects. simpl.
  assert (k ∈ dom (types g)) as HkT by (apply elem_of_dom; eauto).
  destruct (extractCleanType_total k) as [c Hc]. rewrite Hc. simpl.
  destruct (mapIndex D k) eqn:Hidx.
  { rewrite andb_false_r. exists D. split; [done|]. split; [done|].
    split; [set_solver|]. intros _. by apply mapIndex_dom. }
  destruct (types g !! c) as [ti|] eqn:Hty; simpl.
  - destruct (bufferRequestInterface_spec g k ∅ (<[k := true]> D))
      as (P' & D1 & -> & _ & Hsub & Hsup).
    simpl. exists D1. rewrite dom_insert_L in Hsub, Hsup.
    split; [done|]. split; [set_solver|]. split; [set_solver|]. set_solver.
  - exists D. split; [done|]. split; [done|]. split; [set_solver|].
    intros Hclean. simplify_eq.
Qed.

Lemma sweep_spec (l : list (string * TypeInfo)) : ∀ D,
  (∀ k v, (k, v) ∈ l → types g !! k = Some v) →
  ∃ D',
    foldOption (sweepEntry g) D l = Some D' ∧
    dom D ⊆ dom D' ∧ dom D' ⊆ dom D ∪ dom (types g) ∧
    (plainNames g → ∀ k v, (k, v) ∈ l → k ∈ dom D').
Proof.
  induction l as [|[k v] l IH]; intros D Hreg; simpl.
  { exists D. split; [done|]. split; [done|]. split; [set_solver|].
    intros _ k v Hin. by apply elem_of_nil in Hin. }
  destruct (sweepEntry_spec D k v) as (D1 & -> & Hsub & Hsup & Hk);
    [apply Hreg; left|].
  simpl. destruct (IH D1) as (D' & -> & Hsub' & Hsup' & Hl).
  { intros k' v' Hin. apply Hreg. by right. }
  exists D'. split; [done|]. split; [set_solver|]. split; [set_solver|].
  intros Hplain k' v' [Heq|Hin]%elem_of_cons.
  - simplify_eq. apply Hsub', Hk, Hplain. rewrite (Hreg k v); [done|left].
  - by apply (Hl Hplain k' v').
Qed.

Hypothesis range_fair : fairSchedule range.

Lemma range_lookup {V} site (m : gmap string V) k v :
  (k, v) ∈ range V site m ↔ m !! k = Some v.
Proof. rewrite (range_fair V site m). apply elem_of_map_to_list. Qed.

Lemma range_keys {V} site (m : gmap string V) :
  NoDup (range V site m).*1 ∧ ∀ k, k ∈ (range V site m).*1 ↔ is_Some (m !! k).
Proof.
  split.
  - rewrite (range_fair V site m). apply NoDup_fst_map_to_list.
  - intros k. rewrite list_elem_of_fmap. split.
    + intros ([k' v] & -> & Hin). apply range_lookup in Hin. eauto.
    + intros [v Hv]. exists (k, v). split; [done|]. by apply range_lookup.
Qed.

Lemma bufferMissingRequestInterfaces_spec D :
  ∃ D',
    bufferMissingRequestInterfaces range g D = Some D' ∧
    dom D ⊆ dom D' ∧ dom D' ⊆ dom D ∪ dom (types g) ∧
    (plainNames g → dom (types g) ⊆ dom D').
Proof.
  unfold bufferMissingRequestInterfaces.
  destruct (sweep_spec (range _ MissingLoop (types g)) D)
    as (D' & -> & Hsub & Hsup & Hall).
  { intros k v. apply range_lookup. }
  exists D'. split; [done|]. split; [done|]. split; [done|].
  intros Hplain k [v Hv]%elem_of_dom.
  apply (Hall Hplain k v). by apply range_lookup.
Qed.

(** The resolution returns the text of the type and root sections and a
    pending set of registered types; with plain names, all of them. *)
Lemma resolveRequestInterfaces_spec buffer :
  ∃ D,
    resolveRequestInterfaces range g buffer
    = Some (buffer
            +:+ concatText ((λ kv, typeInterfaceText kv.2)
                            <$> range _ TypesLoop (types g))
            +:+ rootText range "Query" (queries g)
            +:+ rootText range "Mutation" (mutations g), D) ∧
    dom D ⊆ dom (types g) ∧
    (plainNames g → dom D = dom (types g)).
Proof.
  unfold resolveRequestInterfaces.
  destruct (generateTypes_text g range buffer (∅, ∅)) as (m1 & -> & H1a & H1b).
  simpl.
  destruct (generateRootInterfaces_text g range
              (buffer +:+ concatText ((λ kv, typeInterfaceText kv.2)
                                      <$> range _ TypesLoop (types g)))
              (queries g) "Query" m1) as (m2 & -> & H2a & H2b).
  simpl.
  destruct (generateRootInterfaces_text g range
              ((buffer +:+ concatText ((λ kv, typeInterfaceText kv.2)
                                       <$> range _ TypesLoop (types g)))
               +:+ rootText range "Query" (queries g))
              (mutations g) "Mutation" m2) as (m3 & -> & H3a & H3b).
  simpl.
  destruct (bufferMissingRequestInterfaces_spec m3.2) as (D & -> & H4a & H4b & H4c).
  simpl in *. exists D. rewrite dom_empty_L in H1b.
  assert (dom D ⊆ dom (types g)) as Hsub.
  { clear -H1b H2b H3b H4b. set_solver. }
  split; [by rewrite !app_assoc|]. split; [done|].
  intros Hplain. apply set_eq. intros x. split; [apply Hsub|by apply H4c].
Qed.

End Sweep.

(** ** What ingestion guarantees of the registry *)

Section Ingestion.

Lemma registryInvariant_empty : registryInvariant emptyGlobals.
Proof. intros name ti H. simpl in H. by rewrite lookup_empty in H. Qed.

Lemma addTypeOrInterface_invariant sk g def g' :
  defKind def = Object ∨ defKind def = Interface →
  addTypeOrInterface sk g def = Ok g' →
  registryInvariant g → registryInvariant g'.
Proof.
  unfold addTypeOrInterface. intros Hk H Hinv.
  destruct (types g !! defName def) as [existing|] eqn:Hex.
  - destruct (_ && _); by simplify_eq.
  - simplify_eq. intros name ti. simpl.
    destruct (decide (defName def = name)) as [<-|Hne].
    + rewrite lookup_insert_eq. intros ?. by simplify_eq.
    + rewrite lookup_insert_ne by done. apply Hinv.
Qed.

Lemma addEnum_types sk g def g' :
  addEnum sk g def = Ok g' → types g' = types g.
Proof.
  unfold addEnum. intros H.
  destruct (enums g !! defName def); [destruct (_ && _)|]; by simplify_eq.
Qed.

Lemma registryInvariant_types g g' :
  types g' = types g → registryInvariant g → registryInvariant g'.
Proof. unfold registryInvariant. by intros ->. Qed.

Lemma processType_invariant sk g typ g' :
  processType sk g typ = Ok g' → registryInvariant g → registryInvariant g'.
Proof.
  unfold processType. intros H Hinv.
  destruct (bool_decide (defKind typ = Object) || bool_decide (defKind typ = Interface))
    eqn:Hk; simpl in H.
  - assert (bool_decide (defKind typ = Enum) = false) as HE.
    { apply bool_decide_eq_false. intros He. rewrite He in Hk. done. }
    rewrite HE in H.
    destruct (String.eqb (defName typ) "Query"); simpl in H;
      [simplify_eq; by apply (registryInvariant_types g)|].
    destruct (String.eqb (defName typ) "Mutation"); simpl in H;
      [simplify_eq; by apply (registryInvariant_types g)|].
    destruct (addTypeOrInterface sk g typ) as [g1|] eqn:Ha; simpl in H; [|done].
    simplify_eq. eapply addTypeOrInterface_invariant; [|exact Ha|done].
    apply orb_true_iff in Hk as [Hk|Hk]; apply bool_decide_eq_true in Hk; auto.
  - destruct (bool_decide (defKind typ = Enum)); simplify_eq; [|done].
    apply addEnum_types in H. by apply (registryInvariant_types g).
Qed.

Lemma foldResult_invariant {A B} (f : B → A → result B) (Inv : B → Prop) :
  (∀ b a b', f b a = Ok b' → Inv b → Inv b') →
  ∀ l b b', foldResult f b l = Ok b' → Inv b → Inv b'.
Proof.
  intros Hf. induction l as [|a l IH]; intros b b' H Hb; simpl in H.
  - by simplify_eq.
  - destruct (f b a) as [b1|] eqn:H1; simpl in H; [|done]. eauto.
Qed.

Lemma processSchemaFiles_invariant sk files g g' :
  processSchemaFiles sk g files = Ok g' →
  registryInvariant g → registryInvariant g'.
Proof.
  apply (foldResult_invariant (processSchemaFile sk) registryInvariant).
  intros b [| |schemaTypes] b'; simpl; try done.
  apply (foldResult_invariant (processType sk) registryInvariant).
  intros ???. apply processType_invariant.
Qed.

Lemma typeInterfaceText_interface typeInfo :
  defKind (tiDefinition typeInfo) = Object
  ∨ defKind (tiDefinition typeInfo) = Interface →
  typeInterfaceText typeInfo
  = interfaceText (tiName typeInfo) (defFields (tiDefinition typeInfo)).
Proof.
  unfold typeInterfaceText, interfaceText. intros [Hk|Hk]; rewrite Hk; simpl;
    by rewrite !app_assoc.
Qed.

Lemma typesText_invariant range g :
  fairSchedule range → registryInvariant g →
  concatText ((λ kv, typeInterfaceText kv.2) <$> range _ TypesLoop (types g))
  = typesText range g.
Proof.
  intros Hfair Hinv. unfold typesText. f_equal.
  apply Forall_fmap_ext, Forall_forall. intros [name ti] Hin.
  apply (range_lookup range Hfair) in Hin. simpl.
  destruct (Hinv name ti Hin) as (Hn & _ & Hk).
  rewrite typeInterfaceText_interface by done. by rewrite Hn.
Qed.

(** A name without brackets and without a marker is left as it is. *)
Lemma extractCleanType_plain name :
  strings.HasSuffix name "!" = false → strings.HasPrefix name "[" = false →
  extractCleanType name = Some name.
Proof.
  intros Hs Hp. unfold extractCleanType.
  rewrite (TrimSuffix_id name "!" Hs), Hp. done.
Qed.

Lemma registryOf_singleton def :
  types (registryOf [def]) = {[defName def := mkTypeInfo (defName def) def]}.
Proof. unfold registryOf. simpl. by rewrite insert_empty. Qed.

Lemma plainNames_node : plainNames nodeGlobals.
Proof.
  intros name [ti Hti]. unfold nodeGlobals in Hti. rewrite registryOf_singleton in Hti.
  apply lookup_singleton_Some in Hti as [<- _].
  by apply extractCleanType_plain.
Qed.

End Ingestion.

(** ** Request projections *)

Lemma extractCleanType_marker ref :
  strings.HasSuffix ref "!" = false →
  extractCleanType (ref +:+ "!") = extractCleanType ref.
Proof.
  intros H. unfold extractCleanType. by rewrite TrimSuffix_app, TrimSuffix_id.
Qed.

Lemma determineFieldType_shape g ref T :
  determineFieldType g ref = Some T →
  T = "boolean | number" ∨ T = "Array<boolean | number>" ∨
  ∃ n, is_Some (types g !! n) ∧
       (T = n +:+ "Request" ∨ T = "Array<" +:+ n +:+ "Request>").
Proof.
  unfold determineFieldType, isObjectType.
  destruct (extractCleanType ref) as [c|]; simpl; [|done].
  destruct (_ && _).
  - destruct (strings.slice c 1 _) as [inner|]; simpl; [|done].
    destruct (types g !! strings.TrimSuffix inner "!") eqn:Hty; intros ?; simplify_eq.
    + right. right. eexists. split; [by rewrite Hty|]. by right.
    + right. by left.
  - destruct (types g !! c) eqn:Hty; intros ?; simplify_eq.
    + right. right. eexists. split; [by rewrite Hty|]. by left.
    + by left.
Qed.

(** C1 (as the code has it). A field of a request-projection interface is
    rendered [name: T;] when its raw reference ends with [!] and [name?: T;]
    when it does not; T is never wrapped in [Nullable<...>]: it is
    [boolean | number], [<Type>Request] of a registered type, or one of the
    two inside [Array<...>], and it is the same with and without the
    marker.  Every emitted request section consists of such lines. *)
Theorem request_field_rendering (g : Globals) (buffer : string)
  (field : FieldDefinition) :
  ∃ T,
    determineFieldType g (fieldType field) = Some T ∧
    writeRequestField g buffer field
    = Some (buffer +:+ "  " +:+ fieldName field
            +:+ (if strings.HasSuffix (fieldType field) "!" then ": " else "?: ")
            +:+ T +:+ ";" +:+ LF) ∧
    (T = "boolean | number" ∨ T = "Array<boolean | number>" ∨
     ∃ n, is_Some (types g !! n) ∧
          (T = n +:+ "Request" ∨ T = "Array<" +:+ n +:+ "Request>")) ∧
    (strings.HasSuffix (fieldType field) "!" = false →
     determineFieldType g (fieldType field +:+ "!") = Some T) ∧
    (∀ range deferredInterfaces,
       generateRequestInterfaces range g buffer deferredInterfaces
       = Some (buffer +:+ requestsText range g deferredInterfaces)) ∧
    requestFieldText g field
    = "  " +:+ fieldName field
      +:+ (if strings.HasSuffix (fieldType field) "!" then ": " else "?: ")
      +:+ T +:+ ";" +:+ LF.
Proof.
  destruct (determineFieldType_total g (fieldType field)) as [T HT].
  exists T. split; [done|].
  assert (requestType g (fieldType field) = T) as HrT
    by (unfold requestType; by rewrite HT).
  split; [|split; [|split; [|split]]].
  - rewrite writeRequestField_text. unfold requestFieldText. rewrite HrT.
    by destruct (strings.HasSuffix _ _).
  - by eapply determineFieldType_shape.
  - intros Hs. unfold determineFieldType in *.
    by rewrite extractCleanType_marker.
  - intros range D. apply generateRequestInterfaces_text.
  - unfold requestFieldText. rewrite HrT. by destruct (strings.HasSuffix _ _).
Qed.

Lemma request_field_rendering_witness :
  strings.HasSuffix "User" "!" = false ∧
  ∃ T, determineFieldType userGlobals "User" = Some T ∧
       determineFieldType userGlobals ("User" +:+ "!") = Some T.
Proof.
  destruct (request_field_rendering userGlobals "" (mkField "owner" "User"))
    as (T & HT & _ & _ & Hmarker & _).
  split; [vm_compute; reflexivity|].
  exists T. split; [exact HT|]. apply Hmarker. vm_compute. reflexivity.
Defined.

(** C1 as stated fails: a nullable field gets the optionality marker. *)
Lemma request_field_optional_marker :
  writeRequestField userGlobals "" (mkField "name" "String")
  = Some ("  name?: boolean | number;" +:+ LF) ∧
  writeRequestField userGlobals "" (mkField "name" "String")
  ≠ Some ("  name: boolean | number;" +:+ LF).
Proof. split; [vm_compute; reflexivity|vm_compute; discriminate]. Qed.

(** C2 (the code at the failing inputs). A single-level list of a
    registered type or of a scalar gets no [Array<...>], because
    [extractCleanType] has already removed the brackets that
    [determineFieldType] then looks for; at depth three the registered
    inner type is not found.  The translator wraps the same references. *)
Lemma determineFieldType_list_unwrapped :
  determineFieldType userGlobals "[User!]!" = Some "UserRequest" ∧
  determineFieldType userGlobals "[String]" = Some "boolean | number" ∧
  determineFieldType userGlobals "[[User]]" = Some "Array<UserRequest>" ∧
  determineFieldType userGlobals "[[[User]]]" = Some "Array<boolean | number>" ∧
  writeRequestField userGlobals "" (mkField "members" "[User!]!")
  = Some ("  members: UserRequest;" +:+ LF) ∧
  convertGraphqlTypeToTs "[User!]!" = Some "Array<User>" ∧
  convertGraphqlTypeToTs "[[[User]]]" = Some "Array<Array<Array<User>>>".
Proof. repeat split; vm_compute; reflexivity. Qed.

(** ** Resolver termination and completeness *)

(** C4. Every call of the resolver returns, on any registry and from any
    state; along calls that share a visited map no type is expanded twice
    and every expanded type is visited.  For [type Node { parent: Node }]
    the pending set is exactly [Node] and one [NodeRequest] is written. *)
Theorem resolver_terminates_expands_once :
  (∀ g returnType P D trace,
     traceOk ((P, D), trace) →
     ∃ P' D' trace',
       bufferRequestInterface g (resolverFuel g) returnType (P, D) = Some (P', D') ∧
       bufferRequestInterface_traced g (resolverFuel g) returnType ((P, D), trace)
       = Some ((P', D'), trace') ∧
       traceOk ((P', D'), trace') ∧
       (∀ k, mapIndex P k = true → mapIndex P' k = true)) ∧
  (∀ range buffer,
     fairSchedule range →
     ∃ buffer' D,
       resolveRequestInterfaces range nodeGlobals buffer = Some (buffer', D) ∧
       dom D = {["Node"]} ∧
       requestsText range nodeGlobals D
       = "export interface NodeRequest {" +:+ LF
         +:+ "  parent?: NodeRequest;" +:+ LF +:+ "}" +:+ LF +:+ LF).
Proof.
  split.
  - intros g s P D tr Hok.
    destruct (bufferRequestInterface_traced_spec g (resolverFuel g) s ((P, D), tr))
      as ([[P' D'] tr'] & Htr & HP & _ & _ & Hok'); [apply resolverFuel_enough|].
    exists P', D', tr'.
    rewrite <-(bufferRequestInterface_traced_erase g _ _ ((P, D), tr)), Htr.
    split; [done|]. split; [done|]. split; [by apply Hok'|].
    intros k Hk. apply elem_of_marked. apply HP. by apply elem_of_marked.
  - intros range buffer Hfair.
    destruct (resolveRequestInterfaces_spec nodeGlobals range Hfair buffer)
      as (D & -> & _ & HD).
    specialize (HD plainNames_node).
    unfold nodeGlobals in HD. rewrite registryOf_singleton, dom_singleton_L in HD.
    eexists _, D. split; [done|]. split; [done|].
    apply dom_singleton_inv_L in HD as [b ->].
    unfold requestsText. change (defName nodeDef) with "Node".
    assert (range bool RequestLoop {["Node" := b]} = [("Node", b)]) as ->.
    { apply Permutation_singleton_r. rewrite (Hfair bool RequestLoop).
      by rewrite map_to_list_singleton. }
    vm_compute. reflexivity.
Qed.

Lemma resolver_terminates_expands_once_witness :
  traceOk (((∅, ∅) : Marks), []) ∧
  ∃ P' D' trace',
    bufferRequestInterface nodeGlobals (resolverFuel nodeGlobals) "Node" (∅, ∅)
    = Some (P', D') ∧
    bufferRequestInterface_traced nodeGlobals (resolverFuel nodeGlobals) "Node"
      ((∅, ∅), []) = Some ((P', D'), trace') ∧
    traceOk ((P', D'), trace') ∧
    (∀ k, mapIndex ∅ k = true → mapIndex P' k = true).
Proof.
  assert (traceOk (((∅, ∅) : Marks), [])) as Hok.
  { split; [apply NoDup_nil_2|]. intros x Hx. by apply elem_of_nil in Hx. }
  split; [exact Hok|].
  exact (proj1 resolver_terminates_expands_once nodeGlobals "Node" ∅ ∅ [] Hok).
Defined.

(** C5. With a fair schedule and plain type names, the pending set after
    the marking passes and the sweep is the set of registered types, and
    the request section has one interface for each of them: the emitted
    names have no duplicate and are exactly the registered names. *)
Theorem every_registered_type_projected_once (range : Schedule) (g : Globals)
  (buffer : string) :
  fairSchedule range → plainNames g →
  ∃ buffer' D,
    resolveRequestInterfaces range g buffer = Some (buffer', D) ∧
    dom D = dom (types g) ∧
    NoDup (range _ RequestLoop D).*1 ∧
    (∀ name, name ∈ (range _ RequestLoop D).*1 ↔ is_Some (types g !! name)) ∧
    generateRequestInterfaces range g buffer' D
    = Some (buffer' +:+ concatText (requestInterfaceText g
                                    <$> (range _ RequestLoop D).*1)) ∧
    (∀ name typeInfo, types g !! name = Some typeInfo →
       requestInterfaceText g name
       = "export interface " +:+ (name +:+ "Request") +:+ " {" +:+ LF
         +:+ concatText (requestFieldText g <$> defFields (tiDefinition typeInfo))
         +:+ "}" +:+ LF +:+ LF).
Proof.
  intros Hfair Hplain.
  destruct (resolveRequestInterfaces_spec g range Hfair buffer) as (D & -> & _ & HD).
  specialize (HD Hplain). eexists _, D. split; [done|]. split; [done|].
  destruct (range_keys range Hfair RequestLoop D) as [Hnd Hkeys].
  split; [done|]. split.
  { intros name. rewrite Hkeys, <-!elem_of_dom, HD. done. }
  split.
  { rewrite generateRequestInterfaces_text. unfold requestsText.
    by rewrite <-list_fmap_compose. }
  intros name ti Hti. unfold requestInterfaceText. by rewrite Hti.
Qed.

Lemma every_registered_type_projected_once_witness :
  ∃ buffer' D,
    resolveRequestInterfaces defaultSchedule nodeGlobals "" = Some (buffer', D) ∧
    dom D = dom (types nodeGlobals).
Proof.
  assert (fairSchedule defaultSchedule) as Hfair by (intros V site m; reflexivity).
  destruct (every_registered_type_projected_once defaultSchedule nodeGlobals ""
              Hfair plainNames_node) as (buffer' & D & H1 & H2 & _).
  exists buffer', D. split; [exact H1|exact H2].
Defined.

(** ** Emitter *)

Lemma interfaceText_not_empty name fields : interfaceText name fields ≠ "".
Proof. unfold interfaceText. discriminate. Qed.

(** * Further properties of the registry and of ingestion *)

Section RegistryMore.

Lemma compareFieldLists_eq a : ∀ b,
  length a = length b →
  (compareFieldLists a b = true ↔
   (λ f, (fieldName f, fieldType f)) <$> a = (λ f, (fieldName f, fieldType f)) <$> b).
Proof.
  induction a as [|fa a IH]; intros [|fb b] Hlen; try done.
  rewrite !fmap_cons. cbn [compareFieldLists]. simpl in Hlen.
  destruct (String.eqb_spec (fieldName fa) (fieldName fb)) as [Hn|Hn]; simpl.
  - destruct (String.eqb_spec (fieldType fa) (fieldType fb)) as [Ht|Ht]; simpl.
    + rewrite IH by lia. rewrite Hn, Ht. split; [by intros ->|].
      intros H. by simplify_eq.
    + split; [done|]. intros H. by simplify_eq.
  - split; [done|]. intros H. by simplify_eq.
Qed.

Lemma compareEnumValueLists_eq a : ∀ b,
  length a = length b →
  (compareEnumValueLists a b = true ↔ enumValueName <$> a = enumValueName <$> b).
Proof.
  induction a as [|va a IH]; intros [|vb b] Hlen; try done.
  rewrite !fmap_cons. cbn [compareEnumValueLists]. simpl in Hlen.
  destruct (String.eqb_spec (enumValueName va) (enumValueName vb)) as [Hn|Hn]; simpl.
  - rewrite IH by lia. rewrite Hn. split; [by intros ->|]. intros H. by simplify_eq.
  - split; [done|]. intros H. by simplify_eq.
Qed.

Lemma compareDefinitions_eq a b :
  compareDefinitions a b = true ↔
  (λ f, (fieldName f, fieldType f)) <$> defFields a
  = (λ f, (fieldName f, fieldType f)) <$> defFields b.
Proof.
  unfold compareDefinitions.
  destruct (Nat.eqb_spec (length (defFields a)) (length (defFields b))) as [Hl|Hl];
    simpl.
  - by apply compareFieldLists_eq.
  - split; [done|]. intros H. apply (f_equal length) in H.
    by rewrite !length_fmap in H.
Qed.

Lemma compareEnums_eq a b :
  compareEnums a b = true ↔
  enumValueName <$> defEnumValues a = enumValueName <$> defEnumValues b.
Proof.
  unfold compareEnums.
  destruct (Nat.eqb_spec (length (defEnumValues a)) (length (defEnumValues b)))
    as [Hl|Hl]; simpl.
  - by apply compareEnumValueLists_eq.
  - split; [done|]. intros H. apply (f_equal length) in H.
    by rewrite !length_fmap in H.
Qed.

Lemma keptIn_refl g : keptIn g g.
Proof. by split. Qed.

Lemma keptIn_trans g1 g2 g3 : keptIn g1 g2 → keptIn g2 g3 → keptIn g1 g3.
Proof. intros [??] [??]. split; by etrans. Qed.

Lemma addTypeOrInterface_kept sk g def g' :
  addTypeOrInterface sk g def = Ok g' → keptIn g g'.
Proof.
  unfold addTypeOrInterface. intros H.
  destruct (types g !! defName def) eqn:Hex.
  - destruct (_ && _); simplify_eq. apply keptIn_refl.
  - simplify_eq. split; simpl; [by apply insert_subseteq|done].
Qed.

Lemma addEnum_kept sk g def g' : addEnum sk g def = Ok g' → keptIn g g'.
Proof.
  unfold addEnum. intros H.
  destruct (enums g !! defName def) eqn:Hex.
  - destruct (_ && _); simplify_eq. apply keptIn_refl.
  - simplify_eq. split; simpl; [done|by apply insert_subseteq].
Qed.

Lemma processType_kept sk g typ g' : processType sk g typ = Ok g' → keptIn g g'.
Proof.
  unfold processType. intros H.
  match type of H with bindResult ?first _ = _ => destruct first as [g1|] eqn:H1 end;
    simpl in H; [|done].
  assert (keptIn g g1) as Hkept.
  { destruct (_ || _); [|simplify_eq; apply keptIn_refl].
    destruct (String.eqb (defName typ) "Query"); [by simplify_eq|].
    destruct (String.eqb (defName typ) "Mutation"); [by simplify_eq|].
    by apply addTypeOrInterface_kept in H1. }
  clear H1. destruct (bool_decide (defKind typ = Enum)); [|by simplify_eq].
  apply addEnum_kept in H. by eapply keptIn_trans.
Qed.

Lemma foldResult_rel {A B} (f : B → A → result B) (R : B → B → Prop) :
  (∀ b, R b b) → (∀ a b c, R a b → R b c → R a c) →
  (∀ b a b', f b a = Ok b' → R b b') →
  ∀ l b b', foldResult f b l = Ok b' → R b b'.
Proof.
  intros Hrefl Htrans Hf. induction l as [|a l IH]; intros b b' H; simpl in H.
  - by simplify_eq.
  - destruct (f b a) as [b1|] eqn:H1; simpl in H; [|done]. eauto.
Qed.

Lemma processSchemaFile_kept sk g file g' :
  processSchemaFile sk g file = Ok g' → keptIn g g'.
Proof.
  destruct file as [| |l]; simpl; try done.
  apply (foldResult_rel (processType sk) keptIn keptIn_refl keptIn_trans).
  intros ???. apply processType_kept.
Qed.

Lemma processSchemaFiles_kept sk g files g' :
  processSchemaFiles sk g files = Ok g' → keptIn g g'.
Proof.
  apply (foldResult_rel (processSchemaFile sk) keptIn keptIn_refl keptIn_trans).
  intros ???. apply processSchemaFile_kept.
Qed.

Lemma foldResult_Err {A B} (f : B → A → result B) l : ∀ b msg,
  foldResult f b l = Err msg → ∃ a b', a ∈ l ∧ f b' a = Err msg.
Proof.
  induction l as [|a l IH]; intros b msg H; simpl in H; [done|].
  destruct (f b a) as [b1|m] eqn:H1; simpl in H.
  - destruct (IH _ _ H) as (a' & b' & Hin & Hf). exists a', b'. split; [by right|done].
  - simplify_eq. exists a, b. split; [left|done].
Qed.

Lemma foldResult_Ok_all {A B} (f : B → A → result B) l :
  (∀ b a, a ∈ l → ∃ b', f b a = Ok b') → ∀ b, ∃ b', foldResult f b l = Ok b'.
Proof.
  induction l as [|a l IH]; intros Hf b; simpl; [eauto|].
  destruct (Hf b a) as [b1 ->]; [left|]. simpl.
  apply IH. intros b' a' Hin. apply Hf. by right.
Qed.

Lemma processType_Err sk g typ msg :
  processType sk g typ = Err msg →
  sk = false ∧
  ((defKind typ = Object ∨ defKind typ = Interface)
   ∧ msg = typeConflict (defName typ)
   ∨ defKind typ = Enum ∧ msg = enumConflict (defName typ)).
Proof.
  unfold processType, addTypeOrInterface, addEnum, typeConflict, enumConflict.
  intros H.
  destruct (bool_decide (defKind typ = Object) || bool_decide (defKind typ = Interface))
    eqn:Hk; simpl in H.
  - assert (defKind typ = Object ∨ defKind typ = Interface) as Hkind.
    { apply orb_true_iff in Hk as [Hk|Hk]; apply bool_decide_eq_true in Hk; auto. }
    assert (bool_decide (defKind typ = Enum) = false) as HE.
    { apply bool_decide_eq_false. intros He. rewrite He in Hk. done. }
    rewrite HE in H.
    destruct (String.eqb (defName typ) "Query"); simpl in H; [done|].
    destruct (String.eqb (defName typ) "Mutation"); simpl in H; [done|].
    destruct (types g !! defName typ); [|done].
    destruct sk; simpl in H; [done|].
    destruct (compareDefinitions _ _); simpl in H; [done|].
    simplify_eq. auto.
  - destruct (bool_decide (defKind typ = Enum)) eqn:HE; [|done].
    apply bool_decide_eq_true in HE.
    destruct (enums g !! defName typ); [|done].
    destruct sk; simpl in H; [done|].
    destruct (compareEnums _ _); simpl in H; [done|].
    simplify_eq. auto.
Qed.

End RegistryMore.

(** X1. [compareDefinitions] accepts two definitions exactly when their
    lists of (field name, type text) pairs are equal, and [compareEnums]
    exactly when their lists of value names are equal: arguments, field
    kinds and descriptions play no part, the order does. *)
Theorem compare_is_list_equality (a b : Definition_) :
  (compareDefinitions a b = true ↔
   (λ f, (fieldName f, fieldType f)) <$> defFields a
   = (λ f, (fieldName f, fieldType f)) <$> defFields b) ∧
  (compareEnums a b = true ↔
   enumValueName <$> defEnumValues a = enumValueName <$> defEnumValues b).
Proof. split; [apply compareDefinitions_eq|apply compareEnums_eq]. Qed.

(** X2. Re-adding a registered enum name: with checks on it is an error
    exactly when the value-name lists differ, and otherwise the registry is
    left as it is; with checks skipped it is never an error and the
    registered enum stays. *)
Theorem addEnum_conflict_iff (g : Globals) (enum existing : Definition_) :
  enums g !! defName enum = Some existing →
  (addEnum false g enum = Err (enumConflict (defName enum)) ↔
   enumValueName <$> defEnumValues existing ≠ enumValueName <$> defEnumValues enum) ∧
  (addEnum false g enum = Ok g ↔
   enumValueName <$> defEnumValues existing = enumValueName <$> defEnumValues enum) ∧
  addEnum true g enum = Ok g.
Proof.
  intros Hex. unfold addEnum, enumConflict. rewrite Hex. simpl.
  pose proof (compareEnums_eq existing enum) as Hcmp.
  destruct (compareEnums existing enum); simpl.
  - split; [|split; [|done]].
    + split; [done|]. intros H. destruct H. by apply Hcmp.
    + split; [intros _; by apply Hcmp|done].
  - split; [|split; [|done]].
    + split; [|done]. intros _ H. apply Hcmp in H. done.
    + split; [done|]. intros H. apply Hcmp in H. done.
Qed.

Lemma addEnum_conflict_iff_witness :
  enums (mkGlobals ∅ {["Status" := statusDef]} ∅ ∅) !! defName statusDef
  = Some statusDef ∧
  addEnum false (mkGlobals ∅ {["Status" := statusDef]} ∅ ∅) statusDef
  = Ok (mkGlobals ∅ {["Status" := statusDef]} ∅ ∅).
Proof.
  assert (enums (mkGlobals ∅ {["Status" := statusDef]} ∅ ∅) !! defName statusDef
          = Some statusDef) as H by (vm_compute; reflexivity).
  split; [exact H|].
  destruct (addEnum_conflict_iff _ statusDef statusDef H) as (_ & Hok & _).
  apply Hok. reflexivity.
Defined.

(** X3. First seen wins, for the whole run and in both modes: an ingestion
    that ends without error never removes or replaces an entry of the type
    registry or of the enum registry. *)
Theorem ingestion_keeps_entries (skipChecks : bool) (g g' : Globals)
  (files : list SchemaFile) :
  processSchemaFiles skipChecks g files = Ok g' →
  (∀ name typeInfo, types g !! name = Some typeInfo →
     types g' !! name = Some typeInfo) ∧
  (∀ name enum, enums g !! name = Some enum → enums g' !! name = Some enum).
Proof.
  intros [Ht He]%processSchemaFiles_kept.
  split; intros name x Hx; by eapply lookup_weaken.
Qed.

Lemma ingestion_keeps_entries_witness :
  ∃ g', processSchemaFiles true fooGlobals [Parsed [fooIntDef]] = Ok g' ∧
        types g' !! "Foo" = Some (mkTypeInfo "Foo" fooStringDef).
Proof.
  destruct (processSchemaFiles true fooGlobals [Parsed [fooIntDef]]) as [g'|msg] eqn:H;
    [|vm_compute in H; discriminate].
  exists g'. split; [reflexivity|].
  apply (proj1 (ingestion_keeps_entries true fooGlobals g' _ H)).
  vm_compute. reflexivity.
Defined.

(** X5. With checks skipped, ingestion of files that were read and parsed
    never fails, whatever they define. *)
Theorem permissive_ingestion_succeeds (g : Globals) (files : list SchemaFile) :
  (∀ file, file ∈ files → ∃ schemaTypes, file = Parsed schemaTypes) →
  ∃ g', processSchemaFiles true g files = Ok g'.
Proof.
  intros Hparsed. apply foldResult_Ok_all.
  intros b file Hin. destruct (Hparsed file Hin) as [l ->]. simpl.
  apply foldResult_Ok_all. intros b' typ _.
  destruct (processType true b' typ) as [b1|msg] eqn:H; [eauto|].
  by apply processType_Err in H as [? _].
Qed.

Lemma permissive_ingestion_succeeds_witness :
  ∃ g', processSchemaFiles true emptyGlobals
          [Parsed [fooStringDef]; Parsed [fooIntDef]] = Ok g'.
Proof.
  apply permissive_ingestion_succeeds.
  intros file Hin. repeat (apply elem_of_cons in Hin as [->|Hin]; [eauto|]).
  by apply elem_of_nil in Hin.
Defined.

(** X6. Every ingestion error is one of four: a file could not be read, a
    file could not be parsed, or (only with checks on) a type or an enum
    defined in one of the files conflicts; the message names the file or
    the conflicting definition. *)
Theorem ingestion_error_cases (skipChecks : bool) (g : Globals)
  (files : list SchemaFile) (msg : string) :
  processSchemaFiles skipChecks g files = Err msg →
  (∃ path err, Unreadable path err ∈ files ∧
     msg = "could not read file " +:+ path +:+ ": " +:+ err) ∨
  (∃ path err, Unparsable path err ∈ files ∧
     msg = "error parsing schema in file " +:+ path +:+ ": " +:+ err) ∨
  (skipChecks = false ∧
   ∃ schemaTypes typ, Parsed schemaTypes ∈ files ∧ typ ∈ schemaTypes ∧
     ((defKind typ = Object ∨ defKind typ = Interface)
      ∧ msg = typeConflict (defName typ)
      ∨ defKind typ = Enum ∧ msg = enumConflict (defName typ))).
Proof.
  intros H. apply foldResult_Err in H as (file & b & Hin & H).
  destruct file as [path err|path err|l]; simpl in H.
  - left. exists path, err. by simplify_eq.
  - right. left. exists path, err. by simplify_eq.
  - right. right. apply foldResult_Err in H as (typ & b' & Hin' & H).
    apply processType_Err in H as [-> Hcase]. split; [done|]. by exists l, typ.
Qed.

Lemma ingestion_error_cases_witness :
  processSchemaFiles false emptyGlobals [Parsed [fooStringDef]; Parsed [fooIntDef]]
  = Err (typeConflict "Foo") ∧
  ((∃ path err,
      Unreadable path err ∈ [Parsed [fooStringDef]; Parsed [fooIntDef]] ∧
      typeConflict "Foo" = "could not read file " +:+ path +:+ ": " +:+ err) ∨
   (∃ path err,
      Unparsable path err ∈ [Parsed [fooStringDef]; Parsed [fooIntDef]] ∧
      typeConflict "Foo" = "error parsing schema in file " +:+ path +:+ ": " +:+ err) ∨
   (false = false ∧
    ∃ schemaTypes typ,
      Parsed schemaTypes ∈ [Parsed [fooStringDef]; Parsed [fooIntDef]] ∧
      typ ∈ schemaTypes ∧
      ((defKind typ = Object ∨ defKind typ = Interface)
       ∧ typeConflict "Foo" = typeConflict (defName typ)
       ∨ defKind typ = Enum ∧ typeConflict "Foo" = enumConflict (defName typ)))).
Proof.
  assert (processSchemaFiles false emptyGlobals
            [Parsed [fooStringDef]; Parsed [fooIntDef]]
          = Err (typeConflict "Foo")) as H by (vm_compute; reflexivity).
  split; [exact H|exact (ingestion_error_cases _ _ _ _ H)].
Defined.

Section IngestionMore.

Lemma addRootFields_names fields : ∀ m,
  (∀ name field, m !! name = Some field → fieldName field = name) →
  ∀ name field, addRootFields fields m !! name = Some field → fieldName field = name.
Proof.
  unfold addRootFields. induction fields as [|f fields IH]; intros m Hm; [done|].
  simpl. apply IH. intros name field.
  destruct (decide (fieldName f = name)) as [<-|Hne].
  - rewrite lookup_insert_eq. intros ?. by simplify_eq.
  - rewrite lookup_insert_ne by done. apply Hm.
Qed.

Lemma addTypeOrInterface_wf sk g def g' :
  defKind def = Object ∨ defKind def = Interface →
  defName def ≠ "Query" → defName def ≠ "Mutation" →
  addTypeOrInterface sk g def = Ok g' →
  registryWellFormed g → registryWellFormed g'.
Proof.
  intros Hk Hq Hm H (Hinv & HQ & HM & He & Hqs & Hms).
  split; [by eapply addTypeOrInterface_invariant|].
  unfold addTypeOrInterface in H.
  destruct (types g !! defName def); [destruct (_ && _); by simplify_eq|].
  simplify_eq. simpl. rewrite !lookup_insert_ne by done. done.
Qed.

Lemma addEnum_wf sk g def g' :
  defKind def = Enum → addEnum sk g def = Ok g' →
  registryWellFormed g → registryWellFormed g'.
Proof.
  intros Hk H (Hinv & HQ & HM & He & Hqs & Hms).
  unfold addEnum in H.
  destruct (enums g !! defName def); [destruct (_ && _); by simplify_eq|].
  simplify_eq. split; [done|]. simpl. split; [done|]. split; [done|].
  split; [|done]. intros name enum.
  destruct (decide (defName def = name)) as [<-|Hne].
  - rewrite lookup_insert_eq. intros ?. by simplify_eq.
  - rewrite lookup_insert_ne by done. apply He.
Qed.

Lemma processType_wf sk g typ g' :
  processType sk g typ = Ok g' → registryWellFormed g → registryWellFormed g'.
Proof.
  unfold processType. intros H Hwf.
  match type of H with bindResult ?first _ = _ => destruct first as [g1|] eqn:H1 end;
    simpl in H; [|done].
  assert (registryWellFormed g1) as Hwf1.
  { destruct (_ || _) eqn:Hk; [|by simplify_eq].
    assert (defKind typ = Object ∨ defKind typ = Interface) as Hkind.
    { apply orb_true_iff in Hk as [Hk|Hk]; apply bool_decide_eq_true in Hk; auto. }
    destruct Hwf as (Hinv & HQ & HM & He & Hqs & Hms).
    destruct (String.eqb_spec (defName typ) "Query") as [Hq|Hq].
    { simplify_eq. split; [exact Hinv|]. simpl.
      split; [done|]. split; [done|]. split; [done|]. split; [|done].
      by apply addRootFields_names. }
    destruct (String.eqb_spec (defName typ) "Mutation") as [Hm|Hm].
    { simplify_eq. split; [exact Hinv|]. simpl.
      split; [done|]. split; [done|]. split; [done|]. split; [done|].
      by apply addRootFields_names. }
    by eapply (addTypeOrInterface_wf sk g typ g1). }
  clear H1. destruct (bool_decide (defKind typ = Enum)) eqn:HE; [|by simplify_eq].
  apply bool_decide_eq_true in HE. by eapply addEnum_wf.
Qed.

Lemma registryWellFormed_empty : registryWellFormed emptyGlobals.
Proof.
  split; [apply registryInvariant_empty|]. simpl.
  repeat split; try done; intros name x H; by rewrite lookup_empty in H.
Qed.

(** Processing a definition leaves it absorbed. *)
Lemma processType_absorbs sk g typ g1 :
  processType sk g typ = Ok g1 → absorbs sk g1 typ.
Proof.
  unfold absorbs, processType, addTypeOrInterface, addEnum. intros H.
  destruct (bool_decide (defKind typ = Object) || bool_decide (defKind typ = Interface))
    eqn:Hk; simpl in *.
  - assert (bool_decide (defKind typ = Enum) = false) as HE.
    { apply bool_decide_eq_false. intros He. rewrite He in Hk. done. }
    rewrite HE in *.
    destruct (String.eqb (defName typ) "Query"); simpl in *; [eauto|].
    destruct (String.eqb (defName typ) "Mutation"); simpl in *; [eauto|].
    destruct (types g !! defName typ) as [existing|] eqn:Hex.
    + destruct (negb sk && negb (compareDefinitions (tiDefinition existing) typ))
        eqn:Hc; simpl in H; [done|]. simplify_eq.
      rewrite Hex, Hc. simpl. eauto.
    + simpl in H. simplify_eq. simpl. rewrite lookup_insert_eq. simpl.
      assert (compareDefinitions typ typ = true) as -> by (by apply compareDefinitions_eq).
      rewrite andb_false_r. simpl. eauto.
  - destruct (bool_decide (defKind typ = Enum)); [|eauto].
    destruct (enums g !! defName typ) as [existing|] eqn:Hex.
    + destruct (negb sk && negb (compareEnums existing typ)) eqn:Hc; [done|].
      simplify_eq. rewrite Hex, Hc. eauto.
    + simplify_eq. simpl. rewrite lookup_insert_eq.
      assert (compareEnums typ typ = true) as -> by (by apply compareEnums_eq).
      rewrite andb_false_r. eauto.
Qed.

(** An absorbed definition stays absorbed in every registry that has kept
    the entries. *)
Lemma absorbs_kept sk g h typ : absorbs sk g typ → keptIn g h → absorbs sk h typ.
Proof.
  unfold absorbs, processType, addTypeOrInterface, addEnum.
  intros (g' & H & Ht & He) [Hkt Hke].
  destruct (bool_decide (defKind typ = Object) || bool_decide (defKind typ = Interface))
    eqn:Hk; simpl in *.
  - assert (bool_decide (defKind typ = Enum) = false) as HE.
    { apply bool_decide_eq_false. intros Hen. rewrite Hen in Hk. done. }
    rewrite HE in *.
    destruct (String.eqb (defName typ) "Query"); simpl in *; [eauto|].
    destruct (String.eqb (defName typ) "Mutation"); simpl in *; [eauto|].
    destruct (types g !! defName typ) as [existing|] eqn:Hex.
    + rewrite (lookup_weaken _ _ _ _ Hex Hkt).
      destruct (negb sk && negb (compareDefinitions (tiDefinition existing) typ));
        simpl in *; [done|eauto].
    + simpl in H. simplify_eq. simpl in Ht.
      apply (f_equal (λ m, m !! defName typ)) in Ht.
      rewrite lookup_insert_eq, Hex in Ht. done.
  - destruct (bool_decide (defKind typ = Enum)); [|eauto].
    destruct (enums g !! defName typ) as [existing|] eqn:Hex.
    + rewrite (lookup_weaken _ _ _ _ Hex Hke).
      destruct (negb sk && negb (compareEnums existing typ)); [done|eauto].
    + simplify_eq. simpl in He.
      apply (f_equal (λ m, m !! defName typ)) in He.
      rewrite lookup_insert_eq, Hex in He. done.
Qed.

Lemma keptIn_same g h h' :
  keptIn g h → types h' = types h → enums h' = enums h → keptIn g h'.
Proof. unfold keptIn. by intros [??] -> ->. Qed.

Lemma processTypes_again sk l : ∀ g g1,
  foldResult (processType sk) g l = Ok g1 →
  ∀ h, keptIn g1 h →
    ∃ h', foldResult (processType sk) h l = Ok h' ∧
          types h' = types h ∧ enums h' = enums h.
Proof.
  induction l as [|typ l IH]; intros g g1 H h Hh; simpl in *; [eauto|].
  destruct (processType sk g typ) as [gm|] eqn:Hm; simpl in H; [|done].
  assert (keptIn gm g1) as Hgm.
  { revert H. apply (foldResult_rel (processType sk) keptIn keptIn_refl keptIn_trans).
    intros ???. apply processType_kept. }
  destruct (absorbs_kept sk gm h typ) as (hm & -> & Ht & He).
  { by eapply processType_absorbs. }
  { by eapply keptIn_trans. }
  simpl. destruct (IH gm g1 H hm) as (h' & -> & Ht' & He').
  { by eapply keptIn_same. }
  exists h'. by rewrite Ht', He'.
Qed.

Lemma processSchemaFiles_again sk files : ∀ g g1,
  processSchemaFiles sk g files = Ok g1 →
  ∀ h, keptIn g1 h →
    ∃ h', processSchemaFiles sk h files = Ok h' ∧
          types h' = types h ∧ enums h' = enums h.
Proof.
  unfold processSchemaFiles.
  induction files as [|file files IH]; intros g g1 H h Hh; simpl in *; [eauto|].
  destruct (processSchemaFile sk g file) as [gm|] eqn:Hm; simpl in H; [|done].
  assert (keptIn gm g1) as Hgm by (by apply (processSchemaFiles_kept sk gm files)).
  destruct file as [| |l]; simpl in Hm; try done.
  destruct (processTypes_again sk l g gm Hm h) as (hm & Hhm & Ht & He).
  { by eapply keptIn_trans. }
  simpl. rewrite Hhm. simpl.
  destruct (IH gm g1 H hm) as (h' & -> & Ht' & He').
  { by eapply keptIn_same. }
  exists h'. by rewrite Ht', He'.
Qed.

Lemma processSchemaFiles_roots sk files : ∀ g g',
  processSchemaFiles sk g files = Ok g' →
  (∀ name, queries g' !! name
     = from_option Some (queries g !! name)
         (lastNamed name (rootFieldsOf "Query" files))) ∧
  (∀ name, mutations g' !! name
     = from_option Some (mutations g !! name)
         (lastNamed name (rootFieldsOf "Mutation" files))).
Proof.
  unfold processSchemaFiles, rootFieldsOf.
  induction files as [|file files IH]; intros g g' H; simpl in H.
  - by simplify_eq.
  - destruct (processSchemaFile sk g file) as [g1|] eqn:H1; simpl in H; [|done].
    apply processSchemaFile_roots in H1 as [Hq Hm].
    apply IH in H as (Hq' & Hm').
    split; intros name; rewrite bind_cons, lastNamed_app.
    + rewrite Hq', Hq. by destruct (lastNamed name (files ≫= _)).
    + rewrite Hm', Hm. by destruct (lastNamed name (files ≫= _)).
Qed.

End IngestionMore.

(** X4. After an ingestion from the empty registry: every registered type
    is stored under its own name and is an object or an interface, [Query]
    and [Mutation] are never registered as types, every registered enum is
    stored under its own name and is an enum, and every root field is stored
    under its own name. *)
Theorem ingestion_well_formed (skipChecks : bool) (files : list SchemaFile)
  (g : Globals) :
  processSchemaFiles skipChecks emptyGlobals files = Ok g → registryWellFormed g.
Proof.
  intros H.
  apply (foldResult_invariant (processSchemaFile skipChecks) registryWellFormed)
    with (l := files) (b := emptyGlobals);
    [|exact H|apply registryWellFormed_empty].
  intros b [| |l] b'; simpl; try done.
  apply (foldResult_invariant (processType skipChecks) registryWellFormed).
  intros ???. apply processType_wf.
Qed.

Lemma ingestion_well_formed_witness :
  ∃ g, processSchemaFiles false emptyGlobals [sampleFile] = Ok g ∧
       registryWellFormed g.
Proof.
  destruct (processSchemaFiles false emptyGlobals [sampleFile]) as [g|msg] eqn:H;
    [|vm_compute in H; discriminate].
  exists g. split; [reflexivity|exact (ingestion_well_formed false [sampleFile] g H)].
Defined.

(** X7. Ingesting the same files a second time, in either mode, succeeds
    and leaves the registry exactly as the first ingestion left it. *)
Theorem ingestion_idempotent (skipChecks : bool) (g g' : Globals)
  (files : list SchemaFile) :
  processSchemaFiles skipChecks g files = Ok g' →
  processSchemaFiles skipChecks g' files = Ok g'.
Proof.
  intros H.
  destruct (processSchemaFiles_again skipChecks files g g' H g' (keptIn_refl g'))
    as (h & Hh & Ht & He).
  rewrite Hh. f_equal.
  destruct (processSchemaFiles_roots skipChecks files g g' H) as [Hq Hm].
  destruct (processSchemaFiles_roots skipChecks files g' h Hh) as [Hq' Hm'].
  assert (queries h = queries g') as Hqs.
  { apply map_eq. intros name. rewrite Hq', Hq.
    by destruct (lastNamed name (rootFieldsOf "Query" files)). }
  assert (mutations h = mutations g') as Hms.
  { apply map_eq. intros name. rewrite Hm', Hm.
    by destruct (lastNamed name (rootFieldsOf "Mutation" files)). }
  destruct h, g'. simpl in *. by subst.
Qed.

Lemma ingestion_idempotent_witness :
  ∃ g, processSchemaFiles false emptyGlobals [sampleFile] = Ok g ∧
       processSchemaFiles false g [sampleFile] = Ok g.
Proof.
  destruct (processSchemaFiles false emptyGlobals [sampleFile]) as [g|msg] eqn:H;
    [|vm_compute in H; discriminate].
  exists g. split; [reflexivity|exact (ingestion_idempotent false _ g [sampleFile] H)].
Defined.

(** * Further properties of the translator, the resolver and the emitter *)

Section ReferencesMore.

Lemma markerText_false s : s +:+ markerText false = s.
Proof. apply app_nil_r. Qed.

Lemma TrimSuffix_refText t :
  plainName (baseName t) → strings.TrimSuffix (refText t) "!" = bareText t.
Proof.
  intros [Hs Hp]. destruct t as [name [|]|elem [|]]; simpl in *.
  - apply TrimSuffix_app.
  - rewrite markerText_false. by apply TrimSuffix_id.
  - apply TrimSuffix_app.
  - rewrite markerText_false. apply TrimSuffix_closing.
Qed.

Lemma HasSuffix_refText t :
  plainName (baseName t) → strings.HasSuffix (refText t) "!" = refNonNull t.
Proof.
  intros [Hs Hp]. destruct t as [name [|]|elem [|]]; simpl in *.
  - apply HasSuffix_app.
  - by rewrite markerText_false.
  - apply HasSuffix_app.
  - rewrite markerText_false. apply HasSuffix_closing.
Qed.

Lemma bracketed_plain name : strings.HasPrefix name "[" = false → bracketed name = false.
Proof. unfold bracketed. by intros ->. Qed.

Lemma convertGraphqlTypeToTs_refText t :
  plainName (baseName t) → convertGraphqlTypeToTs (refText t) = Some (tsExpression t).
Proof.
  induction t as [name nn|elem IH nn]; intros Hplain.
  - rewrite convertGraphqlTypeToTs_unfold. unfold convertStep.
    rewrite (TrimSuffix_refText (NamedRef name nn) Hplain). simpl.
    destruct Hplain as [_ Hp]. simpl in Hp. by rewrite (bracketed_plain name Hp).
  - rewrite (convertGraphqlTypeToTs_clean _ ("[" +:+ refText elem +:+ "]")).
    + rewrite convertGraphqlTypeToTs_list, IH by done. done.
    + rewrite (TrimSuffix_refText (ListRef elem nn) Hplain). simpl.
      by rewrite TrimSuffix_closing.
Qed.

Lemma extractCleanType_refText t :
  plainName (baseName t) →
  extractCleanType (refText t)
  = Some (match t with NamedRef name _ => name | ListRef elem _ => bareText elem end).
Proof.
  intros Hplain. unfold extractCleanType.
  rewrite (TrimSuffix_refText t Hplain).
  fold (bracketed (bareText t)).
  destruct t as [name nn|elem nn]; simpl in *.
  - destruct Hplain as [_ Hp]. by rewrite (bracketed_plain name Hp).
  - rewrite bracketed_app, slice_brackets_app. simpl.
    by rewrite (TrimSuffix_refText elem Hplain).
Qed.

Lemma isObjectType_bracketed g inner :
  (∀ name, is_Some (types g !! name) → plainName name) →
  isObjectType g ("[" +:+ inner +:+ "]") = false.
Proof.
  intros Hreg. unfold isObjectType.
  destruct (types g !! ("[" +:+ inner +:+ "]")) eqn:Hty; [|done].
  destruct (Hreg ("[" +:+ inner +:+ "]")) as [_ Hp]; [eauto|].
  by rewrite HasPrefix_app in Hp.
Qed.

End ReferencesMore.

(** X8. On every well-formed reference with a plain base name, at any
    nesting depth, the translator returns one [Array<...>] per list level
    around the mapped base name, whatever markers the levels carry, and the
    nullability test sees only the outermost marker. *)
Theorem translate_well_formed_reference (t : TypeRef) :
  plainName (baseName t) →
  convertGraphqlTypeToTs (refText t) = Some (tsExpression t) ∧
  strings.HasSuffix (refText t) "!" = refNonNull t.
Proof.
  intros Hplain. split.
  - by apply convertGraphqlTypeToTs_refText.
  - by apply HasSuffix_refText.
Qed.

Lemma translate_well_formed_reference_witness :
  plainName "Int" ∧
  convertGraphqlTypeToTs
    (refText (ListRef (ListRef (ListRef (NamedRef "Int" true) false) true) false))
  = Some "Array<Array<Array<number>>>".
Proof.
  assert (plainName "Int") as H by (split; reflexivity).
  split; [exact H|].
  exact (proj1 (translate_well_formed_reference
                  (ListRef (ListRef (ListRef (NamedRef "Int" true) false) true) false)
                  H)).
Defined.

(** X9. On well-formed references the request projection depends on the
    depth: a name and a list of names give [<Name>Request] or the scalar
    union with no [Array<...>]; a list of lists of names gives one
    [Array<...>]; deeper lists give [Array<boolean | number>] whatever the
    base type.  The resolver's object test answers [true] only for a
    registered name that is bare or one list deep. *)
Theorem request_type_by_depth (g : Globals) (t : TypeRef) :
  plainName (baseName t) →
  (∀ name, is_Some (types g !! name) → plainName name) →
  determineFieldType g (refText t) = Some (requestExpression g t) ∧
  isObjectOrArrayOfObjects g (refText t) = Some (marksObject g t).
Proof.
  intros Hplain Hreg.
  unfold determineFieldType, isObjectOrArrayOfObjects.
  rewrite (extractCleanType_refText t Hplain). simpl.
  destruct t as [name nn|[name nn'|elem nn'] nn]; simpl in *.
  - fold (bracketed name). destruct Hplain as [_ Hp].
    rewrite (bracketed_plain name Hp). unfold isObjectType.
    by destruct (types g !! name).
  - fold (bracketed name). destruct Hplain as [_ Hp].
    rewrite (bracketed_plain name Hp). unfold isObjectType.
    by destruct (types g !! name).
  - fold (bracketed ("[" +:+ refText elem +:+ "]")).
    rewrite bracketed_app, slice_brackets_app. simpl.
    rewrite (TrimSuffix_refText elem Hplain).
    pose proof (isObjectType_bracketed g (refText elem) Hreg) as Hno.
    unfold isObjectType in Hno.
    destruct (types g !! ("[" +:+ refText elem +:+ "]")); [done|].
    split; [|done].
    destruct elem as [name nn''|elem' nn'']; simpl.
    + by destruct (isObjectType g name).
    + by rewrite (isObjectType_bracketed g (refText elem') Hreg).
Qed.

Lemma request_type_by_depth_witness :
  determineFieldType userGlobals
    (refText (ListRef (ListRef (NamedRef "User" true) true) false))
  = Some "Array<UserRequest>" ∧
  isObjectOrArrayOfObjects userGlobals
    (refText (ListRef (ListRef (NamedRef "User" true) true) false)) = Some false.
Proof.
  assert (plainName "User") as H by (split; reflexivity).
  assert (∀ name, is_Some (types userGlobals !! name) → plainName name) as Hreg.
  { intros name [ti Hti]. unfold userGlobals in Hti.
    rewrite registryOf_singleton in Hti.
    by apply lookup_singleton_Some in Hti as [<- _]. }
  exact (request_type_by_depth userGlobals
           (ListRef (ListRef (NamedRef "User" true) true) false) H Hreg).
Defined.

(** X11. With plain type names the request section is closed: the type of
    every field of a request interface is the scalar union, or
    [<Name>Request] for a name whose request interface is emitted, or one
    of the two inside [Array<...>]. *)
Theorem request_section_closed (range : Schedule) (g : Globals) (buffer : string) :
  fairSchedule range → plainNames g →
  ∃ buffer' D,
    resolveRequestInterfaces range g buffer = Some (buffer', D) ∧
    ∀ ref, ∃ T,
      determineFieldType g ref = Some T ∧
      (T = "boolean | number" ∨ T = "Array<boolean | number>" ∨
       ∃ name, (T = name +:+ "Request" ∨ T = "Array<" +:+ name +:+ "Request>") ∧
               name ∈ (range _ RequestLoop D).*1).
Proof.
  intros Hfair Hplain.
  destruct (resolveRequestInterfaces_spec g range Hfair buffer) as (D & -> & _ & HD).
  specialize (HD Hplain). eexists _, D. split; [done|].
  intros ref. destruct (determineFieldType_total g ref) as [T HT].
  exists T. split; [done|].
  destruct (determineFieldType_shape g ref T HT) as [?|[?|(name & Hreg & Hshape)]];
    [by left|by right; left|].
  right. right. exists name. split; [done|].
  apply (range_keys range Hfair RequestLoop D).
  apply elem_of_dom. rewrite HD. by apply elem_of_dom.
Qed.

Lemma request_section_closed_witness :
  ∃ buffer' D,
    resolveRequestInterfaces defaultSchedule nodeGlobals "" = Some (buffer', D) ∧
    ∃ T, determineFieldType nodeGlobals "Node" = Some T.
Proof.
  assert (fairSchedule defaultSchedule) as Hfair by (intros V site m; reflexivity).
  destruct (request_section_closed defaultSchedule nodeGlobals ""
              Hfair plainNames_node) as (buffer' & D & H & Hall).
  exists buffer', D. split; [exact H|].
  destruct (Hall "Node") as (T & HT & _). by exists T.
Defined.

Section PendingMap.

Variable g : Globals.

#[local] Arguments resolverFuel : simpl never.
#[local] Arguments generateTypeInterface : simpl never.
#[local] Arguments writeField : simpl never.

Lemma foldOption_invariant {A B} (f : B → A → option B) (Inv : B → Prop) :
  (∀ b a b', f b a = Some b' → Inv b → Inv b') →
  ∀ l b b', foldOption f b l = Some b' → Inv b → Inv b'.
Proof.
  intros Hf. induction l as [|a l IH]; intros b b' H Hb; simpl in H.
  - by simplify_eq.
  - destruct (f b a) as [b1|] eqn:H1; simpl in H; [|done]. eauto.
Qed.

Lemma allTrue_empty : allTrue ∅.
Proof. intros k b H. by rewrite lookup_empty in H. Qed.

Lemma allTrue_insert m k : allTrue m → allTrue (<[k := true]> m).
Proof.
  intros Hm k' b. destruct (decide (k = k')) as [<-|Hne].
  - rewrite lookup_insert_eq. by intros [= <-].
  - rewrite lookup_insert_ne by done. apply Hm.
Qed.

Lemma bufferRequestInterface_allTrue fuel : ∀ returnType marks marks',
  bufferRequestInterface g fuel returnType marks = Some marks' →
  allTrue marks.2 → allTrue marks'.2.
Proof.
  induction fuel as [|fuel IH]; intros s [P D] marks' H HD; [done|].
  simpl in H. destruct (extractCleanType s) as [c|]; simpl in H; [|done].
  destruct (mapIndex P c); [by simplify_eq|].
  destruct (types g !! c) as [ti|]; [|by simplify_eq].
  refine (foldOption_invariant _ (λ m : Marks, allTrue m.2) _ _ _ _ H _).
  - intros m field m' Hstep Hm.
    destruct (isObjectOrArrayOfObjects g (fieldType field)) as [[]|];
      simpl in Hstep; [by eapply IH|by simplify_eq|done].
  - by apply allTrue_insert.
Qed.

#[local] Arguments bufferRequestInterface : simpl never.

Lemma markFields_allTrue fields marks marks' :
  foldOption
    (λ marks field,
       b ← isObjectOrArrayOfObjects g (fieldType field);
       if b : bool then
         bufferRequestInterface g (resolverFuel g) (fieldType field) marks
       else Some marks)
    marks fields = Some marks' →
  allTrue marks.2 → allTrue marks'.2.
Proof.
  intros H Hm.
  refine (foldOption_invariant _ (λ m : Marks, allTrue m.2) _ _ _ _ H Hm).
  intros m field m' Hstep Hm'. cbv beta in *.
  destruct (isObjectOrArrayOfObjects g (fieldType field)) as [[]|];
    simpl in Hstep;
    [exact (bufferRequestInterface_allTrue _ _ _ _ Hstep Hm')|by simplify_eq|done].
Qed.

Lemma sweepEntry_allTrue D entry D' :
  sweepEntry g D entry = Some D' → allTrue D → allTrue D'.
Proof.
  unfold sweepEntry. intros H HD.
  destruct (isObjectOrArrayOfObjects g entry.1) as [b|]; simpl in H; [|done].
  destruct (b && negb (mapIndex D entry.1)); [|by simplify_eq].
  destruct (bufferRequestInterface g (resolverFuel g) entry.1 (∅, <[entry.1 := true]> D))
    as [[P' D1]|] eqn:Hb; simpl in H; [|done].
  simplify_eq.
  apply (bufferRequestInterface_allTrue _ _ _ _ Hb). simpl. by apply allTrue_insert.
Qed.

Variable range : Schedule.

Lemma generateTypes_allTrue buffer marks buffer' marks' :
  generateTypes range g buffer marks = Some (buffer', marks') →
  allTrue marks.2 → allTrue marks'.2.
Proof.
  unfold generateTypes. intros H Hm.
  refine (foldOption_invariant _ (λ st : string * Marks, allTrue st.2.2)
            _ _ (buffer, marks) (buffer', marks') H Hm).
  intros [b m] [name ti] [b' m'] Hstep Hm0. simpl in *.
  destruct (generateTypeInterface b ti); simpl in Hstep; [|done].
  match type of Hstep with
  | ?marksStep ≫= _ = _ => destruct marksStep as [m2|] eqn:H2
  end; simpl in Hstep; [|done].
  simplify_eq. by eapply markFields_allTrue.
Qed.

Lemma generateRootInterfaces_allTrue buffer fields rootName marks buffer' marks' :
  generateRootInterfaces range g buffer fields rootName marks = Some (buffer', marks') →
  allTrue marks.2 → allTrue marks'.2.
Proof.
  unfold generateRootInterfaces. intros H Hm.
  destruct (0 <? size fields); [|by simplify_eq].
  match type of H with
  | ?loop ≫= _ = _ => destruct loop as [[b2 m2]|] eqn:H2
  end; simpl in H; [|done].
  simplify_eq.
  refine (foldOption_invariant _ (λ st : string * Marks, allTrue st.2.2)
            _ _ (_, marks) (b2, marks') H2 Hm).
  intros [bb mm] [name field] [bb' mm'] Hstep Hmm. simpl in *.
  destruct (writeField bb field); simpl in Hstep; [|done].
  destruct (bufferRequestInterface g (resolverFuel g) (fieldType field) mm)
    as [m3|] eqn:H3; simpl in Hstep; [|done].
  simplify_eq. by eapply bufferRequestInterface_allTrue.
Qed.

Lemma resolveRequestInterfaces_allTrue buffer buffer' D :
  resolveRequestInterfaces range g buffer = Some (buffer', D) → allTrue D.
Proof.
  unfold resolveRequestInterfaces, bufferMissingRequestInterfaces. intros H.
  destruct (generateTypes range g buffer (∅, ∅)) as [[b1 m1]|] eqn:H1;
    simpl in H; [|done].
  apply generateTypes_allTrue in H1; [|apply allTrue_empty].
  destruct (generateRootInterfaces range g b1 (queries g) "Query" m1)
    as [[b2 m2]|] eqn:H2; simpl in H; [|done].
  apply generateRootInterfaces_allTrue in H2; [|done].
  destruct (generateRootInterfaces range g b2 (mutations g) "Mutation" m2)
    as [[b3 m3]|] eqn:H3; simpl in H; [|done].
  apply generateRootInterfaces_allTrue in H3; [|done].
  destruct (foldOption (sweepEntry g) m3.2 (range TypeInfo MissingLoop (types g)))
    as [D4|] eqn:H4; simpl in H; [|done].
  simplify_eq.
  refine (foldOption_invariant (sweepEntry g) allTrue _ _ _ _ H4 H3).
  intros ???. apply sweepEntry_allTrue.
Qed.

End PendingMap.

(** X14. The pending set does not depend on the order in which Go visits
    its maps: with plain type names, any two fair schedules end the
    resolution with the same map, every registered name marked [true]. *)
Theorem pending_set_order_independent (range1 range2 : Schedule) (g : Globals)
  (buffer1 buffer2 : string) :
  fairSchedule range1 → fairSchedule range2 → plainNames g →
  ∃ D,
    snd <$> resolveRequestInterfaces range1 g buffer1 = Some D ∧
    snd <$> resolveRequestInterfaces range2 g buffer2 = Some D ∧
    ∀ name, D !! name = if isObjectType g name then Some true else None.
Proof.
  intros Hfair1 Hfair2 Hplain.
  destruct (resolveRequestInterfaces_spec g range1 Hfair1 buffer1)
    as (D1 & H1 & _ & Hdom1).
  destruct (resolveRequestInterfaces_spec g range2 Hfair2 buffer2)
    as (D2 & H2 & _ & Hdom2).
  specialize (Hdom1 Hplain). specialize (Hdom2 Hplain).
  pose proof (resolveRequestInterfaces_allTrue g range1 _ _ _ H1) as Htrue1.
  pose proof (resolveRequestInterfaces_allTrue g range2 _ _ _ H2) as Htrue2.
  assert (∀ D, dom D = dom (types g) → allTrue D →
               ∀ name, D !! name = if isObjectType g name then Some true else None)
    as Hlookup.
  { intros D Hdom Htrue name. unfold isObjectType.
    destruct (types g !! name) as [ti|] eqn:Hty.
    - assert (name ∈ dom D) as [b Hb]%elem_of_dom
        by (rewrite Hdom; apply elem_of_dom; eauto).
      rewrite Hb. f_equal. by eapply Htrue.
    - apply not_elem_of_dom. rewrite Hdom. by apply not_elem_of_dom. }
  assert (D2 = D1) as ->.
  { apply map_eq. intros name. by rewrite !Hlookup. }
  exists D1. rewrite H1, H2. split; [done|]. split; [done|]. by apply Hlookup.
Qed.

Lemma pending_set_order_independent_witness :
  ∃ D,
    snd <$> resolveRequestInterfaces defaultSchedule nodeGlobals "" = Some D ∧
    D !! "Node" = Some true.
Proof.
  assert (fairSchedule defaultSchedule) as Hfair by (intros V site m; reflexivity).
  destruct (pending_set_order_independent defaultSchedule defaultSchedule nodeGlobals
              "" "" Hfair Hfair plainNames_node) as (D & H & _ & Hlookup).
  exists D. split; [exact H|]. exact (Hlookup "Node").
Defined.

(** * The generated file and the run *)

Section PlainIngestion.

Lemma foldResult_invariant_in {A B} (f : B → A → result B) (Inv : B → Prop) l :
  (∀ b a b', a ∈ l → f b a = Ok b' → Inv b → Inv b') →
  ∀ b b', foldResult f b l = Ok b' → Inv b → Inv b'.
Proof.
  induction l as [|a l IH]; intros Hf b b' H Hb; simpl in H.
  - by simplify_eq.
  - destruct (f b a) as [b1|] eqn:H1; simpl in H; [|done].
    apply (IH (λ b0 a0 b0' Hin, Hf b0 a0 b0' (list_elem_of_further _ _ _ Hin)) b1 b' H).
    apply (Hf b a b1); [left|done|done].
Qed.

Lemma processType_types sk g typ g' :
  processType sk g typ = Ok g' →
  types g' = types g
  ∨ types g' = <[defName typ := mkTypeInfo (defName typ) typ]> (types g).
Proof.
  unfold processType. intros H.
  match type of H with bindResult ?first _ = _ => destruct first as [g1|] eqn:H1 end;
    simpl in H; [|done].
  assert (types g' = types g1) as ->.
  { clear H1. destruct (bool_decide (defKind typ = Enum)); [|by simplify_eq].
    by apply addEnum_types in H. }
  clear H. destruct (_ || _); [|simplify_eq; by left].
  destruct (String.eqb (defName typ) "Query"); [simplify_eq; by left|].
  destruct (String.eqb (defName typ) "Mutation"); [simplify_eq; by left|].
  unfold addTypeOrInterface in H1.
  destruct (types g !! defName typ); [destruct (_ && _); simplify_eq; by left|].
  simplify_eq. by right.
Qed.

(** Plain names in the files give plain names in the registry. *)
Lemma processSchemaFiles_plain sk files g :
  plainFiles files →
  processSchemaFiles sk emptyGlobals files = Ok g → plainNames g.
Proof.
  intros Hfiles H.
  assert (∀ name, is_Some (types g !! name) → plainName name) as Hplain.
  { refine (foldResult_invariant_in (processSchemaFile sk)
              (λ g0, ∀ name, is_Some (types g0 !! name) → plainName name)
              files _ emptyGlobals g H _).
    - intros b [| |l] b' Hin Hfile Hb; simpl in Hfile; try done.
      refine (foldResult_invariant_in (processType sk)
                (λ g0, ∀ name, is_Some (types g0 !! name) → plainName name)
                l _ b b' Hfile Hb).
      intros c typ c' Htyp Hstep Hc name.
      destruct (processType_types sk c typ c' Hstep) as [->| ->]; [apply Hc|].
      destruct (decide (defName typ = name)) as [<-|Hne].
      + intros _. by apply (Hfiles l typ).
      + rewrite lookup_insert_ne by done. apply Hc.
    - intros name [x Hx]. simpl in Hx. by rewrite lookup_empty in Hx. }
  intros name Hname. destruct (Hplain name Hname) as [Hs Hp].
  by apply extractCleanType_plain.
Qed.

(** An error-free walk is the ingestion of the [.graphql] files it meets. *)
Lemma walk_ingests sk walk : ∀ g g',
  foldResult (walkFunc sk) g walk = Ok g' →
  processSchemaFiles sk g (walkedFiles walk) = Ok g'.
Proof.
  unfold processSchemaFiles, walkedFiles.
  induction walk as [|entry walk IH]; intros g g' H; simpl in H; [done|].
  rewrite bind_cons.
  destruct entry as [err|name|name file]; simpl in H; [done|by apply IH|].
  destruct (strings.HasSuffix name ".graphql"); simpl in *; [|by apply IH].
  destruct (processSchemaFile sk g file) as [g1|]; simpl in *; [by apply IH|done].
Qed.

End PlainIngestion.

Section GeneratedFile.

Variable range : Schedule.
Hypothesis range_fair : fairSchedule range.

#[local] Arguments bufferRequestInterface : simpl never.
#[local] Arguments resolverFuel : simpl never.

Lemma range_empty {V} site : range V site ∅ = [].
Proof.
  apply Permutation_nil_r. rewrite (range_fair V site ∅).
  by rewrite map_to_list_empty.
Qed.

Lemma pendingAll_unique g D :
  dom D = dom (types g) → allTrue D → D = pendingAll g.
Proof.
  intros Hdom Htrue. apply map_eq. intros k. unfold pendingAll.
  rewrite lookup_fmap. destruct (types g !! k) as [ti|] eqn:Hty; simpl.
  - assert (k ∈ dom D) as [b Hb]%elem_of_dom
      by (rewrite Hdom; apply elem_of_dom; eauto).
    rewrite Hb. f_equal. by eapply Htrue.
  - apply not_elem_of_dom. rewrite Hdom. by apply not_elem_of_dom.
Qed.

(** The request section for the full pending set: one interface per
    registered type, each type once. *)
Lemma requestsText_pendingAll g :
  requestsText range g (pendingAll g)
  = concatText (requestInterfaceText g <$> (range _ RequestLoop (pendingAll g)).*1) ∧
  NoDup (range _ RequestLoop (pendingAll g)).*1 ∧
  (∀ name, name ∈ (range _ RequestLoop (pendingAll g)).*1
           ↔ is_Some (types g !! name)).
Proof.
  destruct (range_keys range range_fair RequestLoop (pendingAll g)) as [Hnd Hkeys].
  split; [|split; [done|]].
  - unfold requestsText. by rewrite <-list_fmap_compose.
  - intros name. rewrite Hkeys. unfold pendingAll. rewrite lookup_fmap.
    by rewrite fmap_is_Some.
Qed.

(** The text of the second generator for any registry, and its pending set. *)
Lemma generateTypescriptFile_text g :
  ∃ D,
    generateTypescriptFile range None g
    = Some (Ok (headerText
                +:+ enumsText range g
                +:+ concatText ((λ kv, typeInterfaceText kv.2)
                                <$> range _ TypesLoop (types g))
                +:+ rootText range "Query" (queries g)
                +:+ rootText range "Mutation" (mutations g)
                +:+ requestsText range g D)) ∧
    (∃ buffer', resolveRequestInterfaces range g
                  (generateEnums range g (writeFileHeader "")) = Some (buffer', D)) ∧
    dom D ⊆ dom (types g) ∧
    (plainNames g → D = pendingAll g).
Proof.
  unfold generateTypescriptFile.
  destruct (resolveRequestInterfaces_spec g range range_fair
              (generateEnums range g (writeFileHeader ""))) as (D & HD & Hsub & Hall).
  rewrite HD. simpl. exists D.
  rewrite generateRequestInterfaces_text, generateEnums_text, writeFileHeader_text.
  simpl. split; [by rewrite app_nil_l, !app_assoc|].
  split; [eauto|]. split; [done|].
  intros Hplain. apply pendingAll_unique; [by apply Hall|].
  by eapply resolveRequestInterfaces_allTrue.
Qed.

Lemma generateTypescriptFile_first_text g :
  generateTypescriptFile_first range None g
  = Some (Ok (headerText
              +:+ enumsText range g
              +:+ concatText ((λ kv, typeInterfaceText kv.2)
                              <$> range _ TypesLoop (types g))
              +:+ rootText range "Query" (queries g)
              +:+ rootText range "Mutation" (mutations g))).
Proof.
  unfold generateTypescriptFile_first.
  change (foldl _ _ (range Definition_ EnumsLoop (enums g)))
    with (generateEnums range g (writeFileHeader "")).
  rewrite generateEnums_text, writeFileHeader_text, app_nil_l.
  rewrite (foldOption_text _ (λ kv : string * TypeInfo, typeInterfaceText kv.2)).
  2:{ intros buf [name ti]. apply generateTypeInterface_text. }
  simpl.
  assert (∀ rootName (fields : gmap string FieldDefinition) buf,
    (if 0 <? size fields then
       foldOption (λ file '(_, field), writeField file field)
         (WriteString buf ("export interface " +:+ rootName +:+ " {" +:+ LF))
         (range _ (RootLoop rootName) fields)
       ≫= λ file, Some (WriteString file ("}" +:+ LF +:+ LF))
     else Some buf) = Some (buf +:+ rootText range rootName fields)) as Hroot.
  { intros rootName fields buf. unfold rootText.
    destruct (decide (fields = ∅)) as [->|Hne].
    { rewrite map_size_empty. simpl. by rewrite app_nil_r. }
    assert ((0 <? size fields) = true) as ->.
    { apply Nat.ltb_lt. destruct (size fields) eqn:Hsz; [|lia].
      by apply map_size_empty_iff in Hsz. }
    rewrite (foldOption_text _ (λ kv : string * FieldDefinition, fieldText kv.2)).
    2:{ intros b [name field]. apply writeField_text. }
    simpl. f_equal. unfold WriteString, interfaceText.
    rewrite <-list_fmap_compose. by rewrite !app_assoc. }
  rewrite (Hroot "Query" (queries g)). simpl.
  rewrite (Hroot "Mutation" (mutations g)). simpl.
  by rewrite !app_assoc.
Qed.

End GeneratedFile.

(** C8. After ingestion of files whose names are plain, when the output
    file can be created, the generated text is the header with the
    [Nullable] alias, then the enums, then the interfaces of the registered
    types, then the [Query] interface, then the [Mutation] interface, then
    the request projections.  The [Query] ([Mutation]) part is empty exactly
    when there is no Query (Mutation) root field and is one interface
    otherwise.  The request part is one [<Type>Request] interface for every
    registered type, each type once.  When the file cannot be created
    nothing is generated. *)
Theorem output_sections_in_order (range : Schedule) (skipChecks : bool)
  (files : list SchemaFile) (g : Globals) :
  fairSchedule range → plainFiles files →
  processSchemaFiles skipChecks emptyGlobals files = Ok g →
  generateTypescriptFile range None g
  = Some (Ok (headerText
              +:+ enumsText range g
              +:+ typesText range g
              +:+ rootText range "Query" (queries g)
              +:+ rootText range "Mutation" (mutations g)
              +:+ requestsText range g (pendingAll g))) ∧
  (rootText range "Query" (queries g) = "" ↔ queries g = ∅) ∧
  (rootText range "Mutation" (mutations g) = "" ↔ mutations g = ∅) ∧
  (queries g ≠ ∅ →
   rootText range "Query" (queries g)
   = interfaceText "Query" (snd <$> range _ (RootLoop "Query") (queries g))) ∧
  (mutations g ≠ ∅ →
   rootText range "Mutation" (mutations g)
   = interfaceText "Mutation"
       (snd <$> range _ (RootLoop "Mutation") (mutations g))) ∧
  requestsText range g (pendingAll g)
  = concatText (requestInterfaceText g
                <$> (range _ RequestLoop (pendingAll g)).*1) ∧
  NoDup (range _ RequestLoop (pendingAll g)).*1 ∧
  (∀ name, name ∈ (range _ RequestLoop (pendingAll g)).*1
           ↔ is_Some (types g !! name)) ∧
  (∀ name typeInfo, types g !! name = Some typeInfo →
     requestInterfaceText g name
     = "export interface " +:+ (name +:+ "Request") +:+ " {" +:+ LF
       +:+ concatText (requestFieldText g <$> defFields (tiDefinition typeInfo))
       +:+ "}" +:+ LF +:+ LF) ∧
  (∀ err, generateTypescriptFile range (Some err) g
          = Some (Err ("could not create file: " +:+ err))).
Proof.
  intros Hfair Hfiles Hing.
  pose proof (processSchemaFiles_invariant _ _ _ _ Hing registryInvariant_empty)
    as Hinv.
  pose proof (processSchemaFiles_plain _ _ _ Hfiles Hing) as Hplain.
  destruct (generateTypescriptFile_text range Hfair g) as (D & HD & _ & _ & HDall).
  rewrite (HDall Hplain) in HD.
  rewrite (typesText_invariant range g Hfair Hinv) in HD.
  split; [exact HD|].
  destruct (requestsText_pendingAll range Hfair g) as (Hreq & Hnd & Hkeys).
  unfold rootText.
  split; [|split; [|split; [|split; [|split; [|split; [|split; [|split]]]]]]];
    try done.
  - destruct (decide (queries g = ∅)); [done|].
    split; [intros H; by apply interfaceText_not_empty in H|done].
  - destruct (decide (mutations g = ∅)); [done|].
    split; [intros H; by apply interfaceText_not_empty in H|done].
  - intros Hne. by destruct (decide (queries g = ∅)).
  - intros Hne. by destruct (decide (mutations g = ∅)).
  - intros name ti Hti. unfold requestInterfaceText. by rewrite Hti.
Qed.

Lemma plainFiles_sample : plainFiles [sampleFile].
Proof.
  intros l typ Hl Htyp. apply list_elem_of_singleton in Hl.
  unfold sampleFile in Hl. injection Hl as ->.
  repeat (apply elem_of_cons in Htyp as [->|Htyp]; [by split|]).
  by apply elem_of_nil in Htyp.
Qed.

Lemma output_sections_in_order_witness :
  ∃ g,
    processSchemaFiles false emptyGlobals [sampleFile] = Ok g ∧
    generateTypescriptFile defaultSchedule None g
    = Some (Ok (headerText
                +:+ enumsText defaultSchedule g
                +:+ typesText defaultSchedule g
                +:+ rootText defaultSchedule "Query" (queries g)
                +:+ rootText defaultSchedule "Mutation" (mutations g)
                +:+ requestsText defaultSchedule g (pendingAll g))).
Proof.
  assert (fairSchedule defaultSchedule) as Hfair by (intros V site m; reflexivity).
  destruct (processSchemaFiles false emptyGlobals [sampleFile]) as [g|msg] eqn:H;
    [|vm_compute in H; discriminate].
  exists g. split; [reflexivity|].
  exact (proj1 (output_sections_in_order defaultSchedule false [sampleFile] g
                  Hfair plainFiles_sample H)).
Defined.

(** X10. Once the output file is created, generation returns a text for
    every registry, also one that no ingestion produced and whose names are
    not plain: no slice is out of range and no recursion runs away; every
    name in the pending set is a registered type, so the lookup in
    [generateRequestInterfaces] always finds it.  When the file cannot be
    created, generation returns that error and no text.  A run of [main]
    always ends, with a text or with one of its three fatal messages: the
    input directory does not exist, the walk or the ingestion failed, the
    output file could not be created. *)
Theorem generation_total (range : Schedule) (g : Globals) :
  fairSchedule range →
  (∃ buffer' D,
     resolveRequestInterfaces range g (generateEnums range g (writeFileHeader ""))
     = Some (buffer', D) ∧
     generateTypescriptFile range None g
     = Some (Ok (buffer' +:+ requestsText range g D)) ∧
     ∀ name, name ∈ (range _ RequestLoop D).*1 → is_Some (types g !! name)) ∧
  (∀ err, generateTypescriptFile range (Some err) g
          = Some (Err ("could not create file: " +:+ err))) ∧
  (∀ skipChecks inputDir inputDirMissing walk createErr,
     (∃ text,
        main range skipChecks inputDir inputDirMissing walk createErr
        = Some (Ok text) ∧
        inputDirMissing = false ∧ createErr = None ∧
        ∃ g', foldResult (walkFunc skipChecks) emptyGlobals walk = Ok g' ∧
              generateTypescriptFile range None g' = Some (Ok text)) ∨
     (∃ msg,
        main range skipChecks inputDir inputDirMissing walk createErr
        = Some (Err msg) ∧
        (inputDirMissing = true
         ∧ msg = "Input directory does not exist: " +:+ inputDir
         ∨ inputDirMissing = false
           ∧ (∃ err, foldResult (walkFunc skipChecks) emptyGlobals walk = Err err
                     ∧ msg = "Error processing schema files: " +:+ err)
         ∨ inputDirMissing = false
           ∧ (∃ err, createErr = Some err
                     ∧ msg = "Error generating TypeScript file: "
                             +:+ ("could not create file: " +:+ err))))).
Proof.
  intros Hfair. split; [|split; [done|]].
  - destruct (resolveRequestInterfaces_spec g range Hfair
                (generateEnums range g (writeFileHeader ""))) as (D & HD & Hsub & _).
    eexists _, D. split; [exact HD|]. split.
    + unfold generateTypescriptFile. rewrite HD. simpl.
      by rewrite generateRequestInterfaces_text.
    + intros name Hin.
      apply (range_keys range Hfair RequestLoop D) in Hin.
      apply elem_of_dom. apply Hsub. by apply elem_of_dom.
  - intros sk inputDir missing walk createErr. unfold main.
    destruct missing; [right; eauto 10|].
    destruct (foldResult (walkFunc sk) emptyGlobals walk) as [g'|err] eqn:Hwalk;
      [|right; eauto 10].
    destruct createErr as [err|]; [simpl; right; eauto 10|].
    destruct (generateTypescriptFile_text range Hfair g') as (D & HD & _).
    rewrite HD. left. eauto 10.
Qed.

Lemma generation_total_witness :
  ∃ text, generateTypescriptFile defaultSchedule None
            (registryOf [mkDefinition Object "[Odd]!" [mkField "x" "[[Odd]!]"] []])
          = Some (Ok text).
Proof.
  assert (fairSchedule defaultSchedule) as Hfair by (intros V site m; reflexivity).
  destruct (proj1 (generation_total defaultSchedule
              (registryOf [mkDefinition Object "[Odd]!" [mkField "x" "[[Odd]!]"] []])
              Hfair)) as (buffer' & D & _ & H & _).
  eexists. exact H.
Defined.

(** X12. The second [generateTypescriptFile] extends the first: with plain
    type names and under the same visiting orders its text is the text of
    the first, followed by the request interfaces, one [<Type>Request] for
    every registered type, each type once; when the file cannot be created
    both return the same error. *)
Theorem second_generator_extends_first (range : Schedule) (g : Globals) :
  fairSchedule range → plainNames g →
  (∃ text,
     generateTypescriptFile_first range None g = Some (Ok text) ∧
     generateTypescriptFile range None g
     = Some (Ok (text +:+ concatText (requestInterfaceText g
                                      <$> (range _ RequestLoop (pendingAll g)).*1)))) ∧
  NoDup (range _ RequestLoop (pendingAll g)).*1 ∧
  (∀ name, name ∈ (range _ RequestLoop (pendingAll g)).*1
           ↔ is_Some (types g !! name)) ∧
  (∀ name typeInfo, types g !! name = Some typeInfo →
     requestInterfaceText g name
     = "export interface " +:+ (name +:+ "Request") +:+ " {" +:+ LF
       +:+ concatText (requestFieldText g <$> defFields (tiDefinition typeInfo))
       +:+ "}" +:+ LF +:+ LF) ∧
  (∀ err, generateTypescriptFile_first range (Some err) g
          = generateTypescriptFile range (Some err) g).
Proof.
  intros Hfair Hplain.
  destruct (generateTypescriptFile_text range Hfair g) as (D & HD & _ & _ & HDall).
  rewrite (HDall Hplain) in HD.
  destruct (requestsText_pendingAll range Hfair g) as (Hreq & Hnd & Hkeys).
  split; [|split; [done|split; [done|split; [|done]]]].
  - eexists. split; [apply generateTypescriptFile_first_text|].
    rewrite HD, Hreq. by rewrite !app_assoc.
  - intros name ti Hti. unfold requestInterfaceText. by rewrite Hti.
Qed.

Lemma plainNames_user : plainNames userGlobals.
Proof.
  intros name [ti Hti]. unfold userGlobals in Hti. rewrite registryOf_singleton in Hti.
  apply lookup_singleton_Some in Hti as [<- _].
  by apply extractCleanType_plain.
Qed.

Lemma second_generator_extends_first_witness :
  ∃ text,
    generateTypescriptFile_first defaultSchedule None userGlobals = Some (Ok text) ∧
    generateTypescriptFile defaultSchedule None userGlobals
    = Some (Ok (text +:+ concatText
                           (requestInterfaceText userGlobals
                            <$> (defaultSchedule _ RequestLoop
                                   (pendingAll userGlobals)).*1))).
Proof.
  assert (fairSchedule defaultSchedule) as Hfair by (intros V site m; reflexivity).
  exact (proj1 (second_generator_extends_first defaultSchedule userGlobals
                  Hfair plainNames_user)).
Defined.

(** X13. When the input directory exists, the walk meets no error and no
    file whose name ends with [.graphql] (an empty directory, or only
    directories and other files), and the output file can be created, the
    run writes the header with the [Nullable] alias and nothing else. *)
Theorem nothing_to_generate (range : Schedule) (skipChecks : bool)
  (inputDir : string) (walk : list WalkEntry) :
  fairSchedule range →
  (∀ entry, entry ∈ walk →
     (∃ name, entry = WalkDir name) ∨
     (∃ name file, entry = WalkFile name file
                   ∧ strings.HasSuffix name ".graphql" = false)) →
  main range skipChecks inputDir false walk None = Some (Ok headerText).
Proof.
  intros Hfair Hwalk. unfold main.
  assert (foldResult (walkFunc skipChecks) emptyGlobals walk = Ok emptyGlobals) as ->.
  { induction walk as [|entry walk IH]; [done|]. simpl.
    assert (walkFunc skipChecks emptyGlobals entry = Ok emptyGlobals) as ->.
    { destruct (Hwalk entry) as [[name ->]|(name & file & -> & Hname)];
        [left|done|]. simpl. by rewrite Hname. }
    simpl. apply IH. intros e He. apply Hwalk. by right. }
  destruct (generateTypescriptFile_text range Hfair emptyGlobals)
    as (D & -> & _ & Hsub & _).
  simpl in Hsub. rewrite dom_empty_L in Hsub.
  assert (D = ∅) as -> by (apply dom_empty_iff_L; set_solver).
  unfold enumsText, rootText, requestsText. simpl.
  rewrite !(range_empty range Hfair). simpl.
  by rewrite !app_nil_r.
Qed.

Lemma nothing_to_generate_witness :
  main defaultSchedule false "./schemas" false
    [WalkDir "schemas"; WalkFile "notes.txt" (Unreadable "notes.txt" "denied")] None
  = Some (Ok headerText).
Proof.
  apply nothing_to_generate; [intros V site m; reflexivity|].
  intros entry Hin.
  apply elem_of_cons in Hin as [->|Hin]; [left; eauto|].
  apply list_elem_of_singleton in Hin as ->. right. by eexists _, _.
Defined.
